(** * manseglib: mantissa segmentation of IEEE-754 doubles

    A shallow embedding of [manseglib.hpp] (namespace [ManSeg]) and the
    properties of its bit-layout codec, element accessors, segmented
    arrays and composite array.

    Conventions of the embedding.
    - A [double] is its 64-bit IEEE-754 pattern, a [float] cell is its
      32-bit pattern, both as [Z].  The header only ever moves floats
      between SSE lanes and memory, which preserves the pattern.
    - A [__m128]/[__m128d] register is its 128-bit pattern; the two cast
      intrinsics reinterpret the register and are the identity.
    - Memory is a finite map from allocation blocks to arrays of cells; a
      pointer is null, a block with an element offset, or the indeterminate
      value of a member that no constructor initialised.
    - A call either returns, reports an error to its caller, or has
      undefined behaviour ([outcome]). *)

From Stdlib Require Import ZArith QArith Qabs Qpower Lia.
From Stdlib Require Import Floats.SpecFloat.
From stdpp Require Import base option list gmap.

Local Open Scope Z_scope.

(** ** Machine words and SSE registers *)

(** [typedef uint_fast64_t doublerep]: the pattern of a double. *)
Definition doublerep := Z.

Definition wrap32 (z : Z) : Z := Z.land z (Z.ones 32).
Definition wrap64 (z : Z) : Z := Z.land z (Z.ones 64).

(** [0.0f] and [0.0] have the all-zero pattern. *)
Definition zero_f : Z := 0.
Definition zero_d : Z := 0.

(** [_mm_set_ps(e3, e2, e1, e0)]: four float lanes, [e0] the lowest. *)
Definition _mm_set_ps (e3 e2 e1 e0 : Z) : Z :=
  Z.lor (Z.lor (wrap32 e0) (Z.shiftl (wrap32 e1) 32))
        (Z.lor (Z.shiftl (wrap32 e2) 64) (Z.shiftl (wrap32 e3) 96)).

(** [_mm_set_pd(e1, e0)]: two double lanes, [e0] the lowest. *)
Definition _mm_set_pd (e1 e0 : Z) : Z :=
  Z.lor (wrap64 e0) (Z.shiftl (wrap64 e1) 64).

Definition _mm_castps_pd (v : Z) : Z := v.
Definition _mm_castpd_ps (v : Z) : Z := v.

(** Lane subscripts [v[i]] on a [__m128] and on a [__m128d]. *)
Definition ps_lane (v : Z) (i : Z) : Z := wrap32 (Z.shiftr v (32 * i)).
Definition pd_lane (v : Z) (i : Z) : Z := wrap64 (Z.shiftr v (64 * i)).

(** ** The codec in the words of the specification

    Second definitions, written with shifts and masks, against which the
    intrinsic sequences of the header are compared. *)

Definition encodeHeadOnly (d : Z) : Z := wrap32 (Z.shiftr d 32).
Definition encodeTail (d : Z) : Z := wrap32 d.
Definition encodeFull (d : Z) : Z * Z := (encodeHeadOnly d, encodeTail d).
Definition decodeFull (hd tl : Z) : Z := Z.lor (Z.shiftl (wrap32 hd) 32) (wrap32 tl).
Definition decodeHeadOnly (hd : Z) : Z := decodeFull hd 0.

Definition is_u32 (z : Z) : Prop := 0 <= z < 2 ^ 32.
Definition is_u64 (z : Z) : Prop := 0 <= z < 2 ^ 64.

(** ** IEEE-754 binary64 reading of a pattern

    The value of a pattern, through the Standard Library's [spec_float]:
    bit 63 is the sign, bits 62..52 the biased exponent, bits 51..0 the
    fraction. *)

Definition sign_bit (d : Z) : bool := Z.testbit d 63.
Definition biased_exp (d : Z) : Z := Z.land (Z.shiftr d 52) (Z.ones 11).
Definition fraction (d : Z) : Z := Z.land d (Z.ones 52).

Definition bits2SF (d : Z) : spec_float :=
  let s := sign_bit d in
  let e := biased_exp d in
  let m := fraction d in
  if e =? 0 then
    match m with
    | Zpos p => S754_finite s p (-1074)
    | _ => S754_zero s
    end
  else if e =? 2047 then
    if m =? 0 then S754_infinity s else S754_nan
  else
    match 2 ^ 52 + m with
    | Zpos p => S754_finite s p (e - 1075)
    | _ => S754_nan
    end.

(** The inverse on canonical floats; a NaN gets the default quiet pattern. *)
Definition SF2bits (f : spec_float) : Z :=
  let sgn (s : bool) := if s then Z.shiftl 1 63 else 0 in
  match f with
  | S754_zero s => sgn s
  | S754_infinity s => Z.lor (sgn s) (Z.shiftl 2047 52)
  | S754_nan => Z.lor (Z.shiftl 2047 52) (Z.shiftl 1 51)
  | S754_finite s m e =>
      if Zpos m <? 2 ^ 52 then Z.lor (sgn s) (Zpos m)
      else Z.lor (sgn s) (Z.lor (Z.shiftl (e + 1075) 52) (Zpos m - 2 ^ 52))
  end.

Definition SF2Q (f : spec_float) : Q :=
  match f with
  | S754_finite s m e =>
      ((if s then (-1) else 1) * inject_Z (Zpos m) * Qpower 2 e)%Q
  | _ => 0%Q
  end.

Definition B2Q (d : Z) : Q := SF2Q (bits2SF d).

Definition is_finite (d : Z) : bool := negb (biased_exp d =? 2047).
Definition is_normal (d : Z) : bool := (1 <=? biased_exp d) && (biased_exp d <=? 2046).

(** [constexpr double MaxSingleSegmentPrecision = 1e-6]: the double nearest
    to 10^-6. *)
Definition MaxSingleSegmentPrecision : Z := 0x3EB0C6F7A0B5ED8D.
(** [constexpr double AdaptivePrecisionBound = 5e-5]. *)
Definition AdaptivePrecisionBound : Z := 0x3F0A36E2EB1C432D.

(** The built-in [+ - * /] of [double].  The header is generic in the
    hardware's arithmetic; [ieee754] is the round-to-nearest instance of
    the Standard Library's specification. *)
Class DoubleArith := {
  dadd : Z -> Z -> Z;
  dsub : Z -> Z -> Z;
  dmul : Z -> Z -> Z;
  ddiv : Z -> Z -> Z
}.

Definition ieee754 : DoubleArith := {|
  dadd x y := SF2bits (SFadd 53 1024 (bits2SF x) (bits2SF y));
  dsub x y := SF2bits (SFsub 53 1024 (bits2SF x) (bits2SF y));
  dmul x y := SF2bits (SFmul 53 1024 (bits2SF x) (bits2SF y));
  ddiv x y := SF2bits (SFdiv 53 1024 (bits2SF x) (bits2SF y))
|}.

(** ** Memory and calls *)

Inductive ptr :=
  | Null
  | Loc (b : nat) (off : Z)
  | Wild.

Global Instance ptr_eq_dec : EqDecision ptr.
Proof. solve_decision. Defined.

(** [&p[id]]. *)
Definition ptr_index (p : ptr) (id : Z) : ptr :=
  match p with
  | Loc b off => Loc b (off + id)
  | Null => if id =? 0 then Null else Wild
  | Wild => Wild
  end.

Definition is_null (p : ptr) : bool :=
  match p with Null => true | _ => false end.

Abbreviation heap := (gmap nat (list Z)).

(** The error taxonomy of the specification (section 7).  The header has
    no error channel of its own: nothing in it throws or returns a
    status. *)
Inductive error :=
  | AllocationFailure
  | IndexOutOfRange
  | UseAfterRelease
  | DoubleRelease.

Inductive outcome (A : Type) :=
  | Returns (a : A)
  | Raises (e : error)
  | Undefined
  | OutOfFuel.
Arguments Returns {A} a.
Arguments Raises {A} e.
Arguments Undefined {A}.
Arguments OutOfFuel {A}.

Definition M (A : Type) : Type := heap -> outcome (A * heap).

Definition ret {A} (a : A) : M A := fun h => Returns (a, h).
Definition bind {A B} (c : M A) (k : A -> M B) : M B :=
  fun h =>
    match c h with
    | Returns (a, h') => k a h'
    | Raises e => Raises e
    | Undefined => Undefined
    | OutOfFuel => OutOfFuel
    end.
Definition undefined {A} : M A := fun _ => Undefined.

Notation "'do' x <- c ; k" := (bind c (fun x => k))
  (at level 10, x name, c at level 100, k at level 200).
Notation "'do' '_' <- c ; k" := (bind c (fun _ => k))
  (at level 10, c at level 100, k at level 200).

(** The cell a pointer designates, when it designates one. *)
Definition cell (h : heap) (p : ptr) : option Z :=
  match p with
  | Loc b off =>
      match h !! b with
      | Some cs => if 0 <=? off then cs !! Z.to_nat off else None
      | None => None
      end
  | _ => None
  end.

(** [*p] as an rvalue. *)
Definition load (p : ptr) : M Z :=
  fun h => match cell h p with
           | Some v => Returns (v, h)
           | None => Undefined
           end.

(** [*p = v]. *)
Definition store (p : ptr) (v : Z) : M unit :=
  fun h =>
    match p with
    | Loc b off =>
        match h !! b with
        | Some cs =>
            if (0 <=? off) && (off <? Z.of_nat (length cs))
            then Returns (tt, <[b := <[Z.to_nat off := v]> cs]> h)
            else Undefined
        | None => Undefined
        end
    | _ => Undefined
    end.

(** [new T[n]] with the given initial contents, in a fresh block.  Memory
    is unbounded: allocation does not fail. *)
Definition new_array (init : list Z) : M ptr :=
  fun h => let b := fresh (dom h) in Returns (Loc b 0, <[b := init]> h).

(** [new float[n]] leaves the cells indeterminate; [junk] is what they
    happen to hold. [new float[n]()] zeroes them. *)
Definition new_float_uninit (junk : nat -> Z) (n : Z) : M ptr :=
  new_array ((fun k => wrap32 (junk k)) <$> seq 0 (Z.to_nat n)).
Definition new_float_zero (n : Z) : M ptr :=
  new_array (replicate (Z.to_nat n) zero_f).
Definition new_double_uninit (junk : nat -> Z) (n : Z) : M ptr :=
  new_array ((fun k => wrap64 (junk k)) <$> seq 0 (Z.to_nat n)).

(** [delete[] p]: a no-op on null, otherwise [p] must be the start of a
    live block. *)
Definition delete_array (p : ptr) : M unit :=
  fun h =>
    match p with
    | Null => Returns (tt, h)
    | Loc b off =>
        if off =? 0 then
          match h !! b with
          | Some _ => Returns (tt, delete b h)
          | None => Undefined
          end
        else Undefined
    | Wild => Undefined
    end.

(** ** Element accessors *)

(** [class Head]: a proxy bound to one head cell. *)
Module Head.

Record t := mk { head : ptr }.

(** [operator double() const]. *)
Definition operator_double (this : t) : M Z :=
  do hv <- load (head this);
  let head_v := _mm_set_ps zero_f zero_f hv zero_f in
  let head_vd := _mm_castps_pd head_v in
  ret (pd_lane head_vd 0).

(** [operator=(const T& other)] at [T = double]. *)
Definition assign (this : t) (other : Z) : M t :=
  let d := other in
  let d_v := _mm_set_pd zero_d d in
  let seg_v := _mm_castpd_ps d_v in
  do _ <- store (head this) (ps_lane seg_v 1);
  ret this.

Section Arith.
Context {arith : DoubleArith}.

(** [operator+=(const T& rhs)] and its three siblings, at [T = double]. *)
Definition add_assign (this : t) (rhs : Z) : M Z :=
  do t0 <- operator_double this;
  let t1 := dadd t0 rhs in
  do _ <- assign this t1;
  ret t1.

Definition sub_assign (this : t) (rhs : Z) : M Z :=
  do t0 <- operator_double this;
  let t1 := dsub t0 rhs in
  do _ <- assign this t1;
  ret t1.

Definition mul_assign (this : t) (rhs : Z) : M Z :=
  do t0 <- operator_double this;
  let t1 := dmul t0 rhs in
  do _ <- assign this t1;
  ret t1.

Definition div_assign (this : t) (rhs : Z) : M Z :=
  do t0 <- operator_double this;
  let t1 := ddiv t0 rhs in
  do _ <- assign this t1;
  ret t1.
End Arith.

(** [Head(const Head& o)].  No member initialiser: the write goes through
    the new object's own, still indeterminate, [head]. *)
Definition copy (o : t) : M t :=
  let this := mk Wild in
  do v <- load (head o);
  do _ <- store (head this) v;
  ret this.

Section Binary.
Context {arith : DoubleArith}.

(** The free [operator+(Head lhs, const T& rhs)] and its three siblings,
    at [T = double], with [lhs] initialised in place from the operand
    (as in [heads[i] + x]). *)
Definition plus (lhs : t) (rhs : Z) : M Z :=
  do d <- operator_double lhs;
  let d1 := dadd d rhs in
  ret d1.

Definition minus (lhs : t) (rhs : Z) : M Z :=
  do d <- operator_double lhs;
  let d1 := dsub d rhs in
  ret d1.

Definition times (lhs : t) (rhs : Z) : M Z :=
  do d <- operator_double lhs;
  let d1 := dmul d rhs in
  ret d1.

Definition divide (lhs : t) (rhs : Z) : M Z :=
  do d <- operator_double lhs;
  let d1 := ddiv d rhs in
  ret d1.
End Binary.

End Head.

(** [class Pair]: a proxy bound to the head and the tail cell of one
    element. *)
Module Pair.

Record t := mk { head : ptr; tail : ptr }.

(** [Pair(const Head& o)].  The constructor has no member initialisers:
    it writes through its own [head] and [tail] while they still hold
    the indeterminate value (null, for an object of static storage
    duration; the writes are undefined all the same). *)
Definition from_Head (o : Head.t) : M t :=
  let this := mk Wild Wild in
  do v <- load (Head.head o);
  do _ <- store (head this) v;
  do _ <- store (tail this) zero_f;
  ret this.

(** [operator double() const]. *)
Definition operator_double (this : t) : M Z :=
  do hv <- load (head this);
  do tv <- load (tail this);
  let seg_v := _mm_set_ps zero_f zero_f hv tv in
  let seg_vd := _mm_castps_pd seg_v in
  ret (pd_lane seg_vd 0).

(** [operator=(const Head& other)], the specialisation selected for a
    [Head] on the right-hand side; the one for [const Head&&] has the
    same body. *)
Definition assign_Head (this : t) (other : Head.t) : M t :=
  do v <- load (Head.head other);
  do _ <- store (head this) v;
  ret this.

(** [operator=(const T& other)] at [T = double]. *)
Definition assign (this : t) (other : Z) : M t :=
  let d := other in
  let d_v := _mm_set_pd zero_d d in
  let seg_v := _mm_castpd_ps d_v in
  do _ <- store (tail this) (ps_lane seg_v 0);
  do _ <- store (head this) (ps_lane seg_v 1);
  ret this.

(** [Pair(const Pair& o)].  No member initialisers either. *)
Definition copy (o : t) : M t :=
  let this := mk Wild Wild in
  do v <- load (head o);
  do _ <- store (head this) v;
  do w <- load (tail o);
  do _ <- store (tail this) w;
  ret this.

Section Arith.
Context {arith : DoubleArith}.

(** [operator+=(const T& rhs)] and its three siblings, at [T = double]. *)
Definition add_assign (this : t) (rhs : Z) : M Z :=
  do t0 <- operator_double this;
  let r := rhs in
  let t1 := dadd t0 r in
  do _ <- assign this t1;
  ret t1.

Definition sub_assign (this : t) (rhs : Z) : M Z :=
  do t0 <- operator_double this;
  let r := rhs in
  let t1 := dsub t0 r in
  do _ <- assign this t1;
  ret t1.

Definition mul_assign (this : t) (rhs : Z) : M Z :=
  do t0 <- operator_double this;
  let r := rhs in
  let t1 := dmul t0 r in
  do _ <- assign this t1;
  ret t1.

Definition div_assign (this : t) (rhs : Z) : M Z :=
  do t0 <- operator_double this;
  let r := rhs in
  let t1 := ddiv t0 r in
  do _ <- assign this t1;
  ret t1.

(** The free [operator+(Pair lhs, const T& rhs)] and its three siblings,
    with [lhs] initialised in place from the operand. *)
Definition plus (lhs : t) (rhs : Z) : M Z :=
  do d <- operator_double lhs;
  let r := rhs in
  let d1 := dadd d r in
  ret d1.

Definition minus (lhs : t) (rhs : Z) : M Z :=
  do d <- operator_double lhs;
  let r := rhs in
  let d1 := dsub d r in
  ret d1.

Definition times (lhs : t) (rhs : Z) : M Z :=
  do d <- operator_double lhs;
  let r := rhs in
  let d1 := dmul d r in
  ret d1.

Definition divide (lhs : t) (rhs : Z) : M Z :=
  do d <- operator_double lhs;
  let r := rhs in
  let d1 := ddiv d r in
  ret d1.
End Arith.

End Pair.

(** [Head::operator=(const Pair& other)], the specialisation selected for
    a [Pair] on the right-hand side; the one for [const Pair&&] has the
    same body. *)
Definition Head_assign_Pair (this : Head.t) (other : Pair.t) : M Head.t :=
  do v <- load (Pair.head other);
  do _ <- store (Head.head this) v;
  ret this.

(** ** Segmented storage *)

Module TwoSegArray.
(** The two private members of both specialisations. *)
Record t := mk { heads : ptr; tails : ptr }.
End TwoSegArray.

(** [TwoSegArray<true>], also named [PairsArray]. *)
Module PairsArray.
Import TwoSegArray.

(** [TwoSegArray()]. *)
Definition empty : t := mk Null Null.

(** [operator[](id)].  The accessor is built in place in the caller; no
    bounds are checked. *)
Definition at_ (this : t) (id : Z) : Pair.t :=
  Pair.mk (ptr_index (heads this) id) (ptr_index (tails this) id).

(** [set(id, t)] at [T = double]. *)
Definition set (this : t) (id : Z) (t0 : Z) : M unit :=
  let d := t0 in
  let d_v := _mm_set_pd zero_d d in
  let seg_v := _mm_castpd_ps d_v in
  do _ <- store (ptr_index (tails this) id) (ps_lane seg_v 0);
  store (ptr_index (heads this) id) (ps_lane seg_v 1).

Definition setPair (this : t) (id : Z) (t0 : Z) : M unit :=
  let d := t0 in
  let d_v := _mm_set_pd zero_d d in
  let seg_v := _mm_castpd_ps d_v in
  do _ <- store (ptr_index (tails this) id) (ps_lane seg_v 0);
  store (ptr_index (heads this) id) (ps_lane seg_v 1).

(** [read(id)]. *)
Definition read (this : t) (id : Z) : M Z :=
  Pair.operator_double
    (Pair.mk (ptr_index (heads this) id) (ptr_index (tails this) id)).

Definition createFullPrecision (this : t) : t := mk (heads this) (tails this).

Definition alloc (junk : nat -> Z) (length : Z) : M t :=
  do hs <- new_float_uninit junk length;
  do ts <- new_float_zero length;
  ret (mk hs ts).

Definition isAlloc (this : t) : bool :=
  negb (is_null (heads this)) && negb (is_null (tails this)).

Definition del (this : t) : M t :=
  do _ <- (if negb (is_null (heads this)) then delete_array (heads this) else ret tt);
  do _ <- (if negb (is_null (tails this)) then delete_array (tails this) else ret tt);
  ret (mk Null Null).

End PairsArray.

(** [TwoSegArray<false>], also named [HeadsArray]. *)
Module HeadsArray.
Import TwoSegArray.

Definition empty : t := mk Null Null.

(** [set(id, t)] at [T = double]: the head cell only. *)
Definition set (this : t) (id : Z) (t0 : Z) : M unit :=
  let d := t0 in
  let d_v := _mm_set_pd zero_d d in
  let seg_v := _mm_castpd_ps d_v in
  store (ptr_index (heads this) id) (ps_lane seg_v 1).

Definition setPair (this : t) (id : Z) (t0 : Z) : M unit :=
  let d := t0 in
  let d_v := _mm_set_pd zero_d d in
  let seg_v := _mm_castpd_ps d_v in
  do _ <- store (ptr_index (tails this) id) (ps_lane seg_v 0);
  store (ptr_index (heads this) id) (ps_lane seg_v 1).

(** [read(id)]. *)
Definition read (this : t) (id : Z) : M Z :=
  Head.operator_double (Head.mk (ptr_index (heads this) id)).

(** [operator[](id)].  The accessor is built in place in the caller; no
    bounds are checked. *)
Definition at_ (this : t) (id : Z) : Head.t :=
  Head.mk (ptr_index (heads this) id).

Definition createFullPrecision (this : t) : t := mk (heads this) (tails this).

Definition alloc (junk : nat -> Z) (length : Z) : M t :=
  do hs <- new_float_uninit junk length;
  do ts <- new_float_zero length;
  ret (mk hs ts).

Definition isAlloc (this : t) : bool :=
  negb (is_null (heads this)) && negb (is_null (tails this)).

Definition del (this : t) : M t :=
  do _ <- (if negb (is_null (heads this)) then delete_array (heads this) else ret tt);
  do _ <- (if negb (is_null (tails this)) then delete_array (tails this) else ret tt);
  ret (mk Null Null).

End HeadsArray.

(** ** Composite array *)

(** The largest [int]; [++i] beyond it is undefined. *)
Definition INT_MAX : Z := 2147483647.

Module ManSegArray.

Record t := mk {
  heads : TwoSegArray.t;
  pairs : TwoSegArray.t;
  full : ptr;
  length : Z
}.

(** [ManSegArray()]. *)
Definition empty : t := mk HeadsArray.empty PairsArray.empty Null 0.

(** [ManSegArray(length)]. *)
Definition create (junk : nat -> Z) (len : Z) : M t :=
  do hs <- HeadsArray.alloc junk len;
  let ps := HeadsArray.createFullPrecision hs in
  ret (mk hs ps Null len).

(** [alloc(length)]. *)
Definition alloc (junk : nat -> Z) (this : t) (len : Z) : M t :=
  do hs <- HeadsArray.alloc junk len;
  let ps := HeadsArray.createFullPrecision hs in
  ret (mk hs ps (full this) len).

(** The loop of [copytoIEEEdouble],
    [for(int i = 0; i < length; ++i) full[i] = heads[i];]
    from counter value [i] on.  The counter is an [int]; it is converted
    to [uint_fast64_t] for the comparison and for [operator[]].  The
    iterations touch disjoint cells, so the order in which
    [omp parallel for] runs them does not show. *)
Fixpoint copy_loop (fuel : nat) (this : t) (i : Z) : M unit :=
  if wrap64 i <? length this then
    match fuel with
    | O => fun _ => OutOfFuel
    | S fuel' =>
        do v <- Head.operator_double (HeadsArray.at_ (heads this) (wrap64 i));
        do _ <- store (ptr_index (full this) i) v;
        if i =? INT_MAX then undefined
        else copy_loop fuel' this (i + 1)
    end
  else ret tt.

(** [copytoIEEEdouble()]. *)
Definition copytoIEEEdouble (junk : nat -> Z) (this : t) : M t :=
  do f <- new_double_uninit junk (length this);
  let this' := mk (heads this) (pairs this) f (length this) in
  do _ <- copy_loop (Z.to_nat (length this)) this' 0;
  ret this'.

(** [delSegments()]. *)
Definition delSegments (this : t) : M t :=
  do hs <- HeadsArray.del (heads this);
  ret (mk hs (pairs this) (full this)
          (if is_null (full this) then 0 else length this)).

(** [del()]. *)
Definition del (this : t) : M t :=
  do _ <- (if negb (is_null (full this)) then delete_array (full this) else ret tt);
  ret (mk (heads this) (pairs this) Null
          (if negb (HeadsArray.isAlloc (heads this)) then 0 else length this)).

End ManSegArray.

(** ** Well-formed states *)

(** [p] is the start of a live block of [n] cells. *)
Definition array_at (h : heap) (p : ptr) (n : Z) : Prop :=
  exists b cs, p = Loc b 0 /\ h !! b = Some cs /\ Z.of_nat (length cs) = n.

(** What [alloc(n)] establishes and the element operations keep. *)
Definition allocated (h : heap) (a : TwoSegArray.t) (n : Z) : Prop :=
  array_at h (TwoSegArray.heads a) n /\
  array_at h (TwoSegArray.tails a) n /\
  TwoSegArray.heads a <> TwoSegArray.tails a.

(** A composite array after [create(n)] or [alloc(n)]. *)
Definition composite (h : heap) (a : ManSegArray.t) (n : Z) : Prop :=
  allocated h (ManSegArray.heads a) n /\
  ManSegArray.pairs a = HeadsArray.createFullPrecision (ManSegArray.heads a) /\
  ManSegArray.length a = n.

(** The heap after [*p = v], for a pointer that designates a cell. *)
Definition heap_upd (h : heap) (p : ptr) (v : Z) : heap :=
  match p with
  | Loc b off =>
      match h !! b with
      | Some cs => if 0 <=? off then <[b := <[Z.to_nat off := v]> cs]> h else h
      | None => h
      end
  | _ => h
  end.

(** Relative error of the pattern [x] as an approximation of [d]. *)
Definition rel_err (x d : Z) : Q := (Qabs (B2Q x - B2Q d) / Qabs (B2Q d))%Q.

(** What a compound assignment on the accessor [H] leaves behind: it
    returns [t], the head cell holds the upper half of [t], every other
    cell is as in [h]. *)
Definition compound_result (h : heap) (H : Head.t) (t : Z)
    (o : outcome (Z * heap)) : Prop :=
  exists h',
    o = Returns (t, h') /\
    cell h' (Head.head H) = Some (encodeHeadOnly t) /\
    forall q, q <> Head.head H -> cell h' q = cell h q.

(** What a compound assignment on the pair accessor [P] leaves behind:
    it returns [t], the two cells hold the two halves of [t], every other
    cell is as in [h]. *)
Definition pair_compound_result (h : heap) (P : Pair.t) (t : Z)
    (o : outcome (Z * heap)) : Prop :=
  exists h',
    o = Returns (t, h') /\
    cell h' (Pair.head P) = Some (encodeHeadOnly t) /\
    cell h' (Pair.tail P) = Some (encodeTail t) /\
    forall q, q <> Pair.head P -> q <> Pair.tail P -> cell h' q = cell h q.


(** Mantissa and exponent of a finite pattern: its value is
    [(-1)^sign * mantissa * 2^exponent]. *)
Definition mantissa (d : Z) : Z :=
  if biased_exp d =? 0 then fraction d else 2 ^ 52 + fraction d.
Definition exponent (d : Z) : Z :=
  if biased_exp d =? 0 then -1074 else biased_exp d - 1075.

(** ** A small concrete state

    Two elements: 2.5 with a zero tail, and pi with its full tail. *)
Definition example_heap : heap :=
  <[1%nat := [0; 0x54442D18]]> (<[0%nat := [0x40040000; 0x400921FB]]> ∅).
Definition example_array : TwoSegArray.t := TwoSegArray.mk (Loc 0 0) (Loc 1 0).
Definition example_composite : ManSegArray.t :=
  ManSegArray.mk example_array example_array Null 2.
Definition example_junk (k : nat) : Z := 0x7FF8000000000000 + Z.of_nat k.

(** ** Bit-level lemmas *)

Lemma testbit_wrap32 z n : 0 <= n -> Z.testbit (wrap32 z) n = Z.testbit z n && (n <? 32).
Proof.
  intros Hn. unfold wrap32. rewrite Z.land_spec, Z.testbit_ones by lia.
  destruct (Z.leb_spec 0 n); [|lia]. reflexivity.
Qed.

Lemma testbit_wrap64 z n : 0 <= n -> Z.testbit (wrap64 z) n = Z.testbit z n && (n <? 64).
Proof.
  intros Hn. unfold wrap64. rewrite Z.land_spec, Z.testbit_ones by lia.
  destruct (Z.leb_spec 0 n); [|lia]. reflexivity.
Qed.

Lemma wrap32_range z : is_u32 (wrap32 z).
Proof.
  unfold is_u32, wrap32. rewrite Z.land_ones by lia. apply Z.mod_pos_bound. lia.
Qed.

Lemma wrap64_range z : is_u64 (wrap64 z).
Proof.
  unfold is_u64, wrap64. rewrite Z.land_ones by lia. apply Z.mod_pos_bound. lia.
Qed.

Lemma wrap32_id z : is_u32 z -> wrap32 z = z.
Proof.
  unfold is_u32, wrap32. intros H. rewrite Z.land_ones by lia.
  apply Z.mod_small. lia.
Qed.

Lemma wrap64_id z : is_u64 z -> wrap64 z = z.
Proof.
  unfold is_u64, wrap64. intros H. rewrite Z.land_ones by lia.
  apply Z.mod_small. lia.
Qed.

(** Bit extensionality: push [testbit] to the leaves, split on the range
    of the bit position, decide the comparisons and drop negative
    positions. *)
Ltac bits_push :=
  repeat first
    [ rewrite Z.lor_spec | rewrite Z.land_spec
    | rewrite testbit_wrap32 by lia | rewrite testbit_wrap64 by lia
    | rewrite Z.shiftr_spec by lia | rewrite Z.shiftl_spec by lia
    | rewrite Z.testbit_0_l ].

Ltac bits_decide n :=
  repeat match goal with
  | |- context [ Z.testbit (wrap32 ?z) ?k ] =>
      first [ rewrite (testbit_wrap32 z k) by lia
            | rewrite (Z.testbit_neg_r (wrap32 z) k) by lia ]
  | |- context [ Z.testbit (wrap64 ?z) ?k ] =>
      first [ rewrite (testbit_wrap64 z k) by lia
            | rewrite (Z.testbit_neg_r (wrap64 z) k) by lia ]
  end;
  bits_push;
  repeat match goal with
  | |- context [ ?a <? ?b ] =>
      first [ rewrite (proj2 (Z.ltb_lt a b)) by lia
            | rewrite (proj2 (Z.ltb_ge a b)) by lia ]
  end;
  repeat match goal with
  | |- context [ Z.testbit ?z ?k ] => rewrite (Z.testbit_neg_r z k) by lia
  end;
  repeat match goal with
  | |- context [ Z.testbit ?z ?k ] => progress (replace k with n by lia)
  end;
  rewrite ?andb_true_r, ?andb_false_r, ?orb_false_r, ?orb_false_l;
  try reflexivity.

Ltac bits :=
  apply Z.bits_inj'; intros ?n ?Hn; bits_push;
  match goal with
  | Hn : 0 <= ?n |- _ =>
      destruct (Z.lt_ge_cases n 32); [bits_decide n|];
      destruct (Z.lt_ge_cases n 64); [bits_decide n|];
      destruct (Z.lt_ge_cases n 96); [bits_decide n|];
      destruct (Z.lt_ge_cases n 128); bits_decide n
  end.

(** The double read back from lane 0 of [_mm_set_ps(0, 0, hd, tl)]. *)
Lemma pd_lane0_set_ps hd tl :
  pd_lane (_mm_castps_pd (_mm_set_ps zero_f zero_f hd tl)) 0 = decodeFull hd tl.
Proof.
  unfold pd_lane, _mm_castps_pd, _mm_set_ps, decodeFull, zero_f.
  bits.
Qed.


Lemma ps_lane0_set_pd d :
  ps_lane (_mm_castpd_ps (_mm_set_pd zero_d d)) 0 = encodeTail d.
Proof.
  unfold ps_lane, _mm_castpd_ps, _mm_set_pd, encodeTail, zero_d.
  bits.
Qed.

Lemma ps_lane1_set_pd d :
  ps_lane (_mm_castpd_ps (_mm_set_pd zero_d d)) 1 = encodeHeadOnly d.
Proof.
  unfold ps_lane, _mm_castpd_ps, _mm_set_pd, encodeHeadOnly, zero_d.
  bits.
Qed.

Lemma decodeFull_wrap64 d : decodeFull (encodeHeadOnly d) (encodeTail d) = wrap64 d.
Proof. unfold decodeFull, encodeHeadOnly, encodeTail. bits. Qed.

Lemma decodeFull_encodeFull d :
  is_u64 d -> decodeFull (encodeHeadOnly d) (encodeTail d) = d.
Proof. intros Hd. rewrite decodeFull_wrap64. now apply wrap64_id. Qed.

Lemma encodeHeadOnly_decodeFull hd tl : encodeHeadOnly (decodeFull hd tl) = wrap32 hd.
Proof. unfold decodeFull, encodeHeadOnly. bits. Qed.

Lemma encodeTail_decodeFull hd tl : encodeTail (decodeFull hd tl) = wrap32 tl.
Proof. unfold decodeFull, encodeTail. bits. Qed.

Lemma encodeHeadOnly_range d : is_u32 (encodeHeadOnly d).
Proof. apply wrap32_range. Qed.

Lemma decodeFull_range hd tl : is_u64 (decodeFull hd tl).
Proof.
  assert (Hw : wrap64 (decodeFull hd tl) = decodeFull hd tl)
    by (unfold decodeFull; bits).
  rewrite <- Hw. apply wrap64_range.
Qed.

(** Concatenation as arithmetic. *)
Lemma decodeFull_add hd tl : decodeFull hd tl = wrap32 hd * 2 ^ 32 + wrap32 tl.
Proof.
  unfold decodeFull.
  assert (Hdisj : Z.land (Z.shiftl (wrap32 hd) 32) (wrap32 tl) = 0) by bits.
  rewrite <- Z.lxor_lor by exact Hdisj.
  rewrite <- Z.add_nocarry_lxor by exact Hdisj.
  rewrite Z.shiftl_mul_pow2 by lia. reflexivity.
Qed.

(** Head-only decoding clears the low half of a pattern. *)
Lemma decodeHeadOnly_encodeHeadOnly d :
  is_u64 d -> decodeHeadOnly (encodeHeadOnly d) = d - d mod 2 ^ 32.
Proof.
  intros Hd. unfold decodeHeadOnly.
  pose proof (decodeFull_encodeFull d Hd) as Hfull.
  rewrite decodeFull_add in Hfull. rewrite decodeFull_add.
  rewrite (wrap32_id 0) by (unfold is_u32; lia).
  rewrite (wrap32_id (encodeTail d)) in Hfull by apply wrap32_range.
  assert (Htl : encodeTail d = d mod 2 ^ 32)
    by (unfold encodeTail, wrap32; apply Z.land_ones; lia).
  lia.
Qed.

(** ** Loads, stores and the heap *)

Lemma cell_Some_inv h p v :
  cell h p = Some v ->
  exists b off cs, p = Loc b off /\ h !! b = Some cs /\ 0 <= off /\
                   cs !! Z.to_nat off = Some v.
Proof.
  destruct p as [|b off|]; simpl; try discriminate.
  destruct (h !! b) as [cs|] eqn:Hb; try discriminate.
  destruct (Z.leb_spec 0 off); try discriminate.
  intros Hv. exists b, off, cs. auto.
Qed.

Lemma load_cell h p v : cell h p = Some v -> load p h = Returns (v, h).
Proof. intros Hc. unfold load. now rewrite Hc. Qed.

Lemma load_undefined h p : cell h p = None -> load p h = Undefined.
Proof. intros Hc. unfold load. now rewrite Hc. Qed.

Lemma store_cell h p v old :
  cell h p = Some old -> store p v h = Returns (tt, heap_upd h p v).
Proof.
  intros Hc. destruct (cell_Some_inv _ _ _ Hc) as (b & off & cs & -> & Hb & Hoff & Hcs).
  unfold store, heap_upd. rewrite Hb.
  apply lookup_lt_Some in Hcs.
  destruct (Z.leb_spec 0 off); [|lia].
  destruct (Z.ltb_spec off (Z.of_nat (length cs))); [reflexivity|lia].
Qed.

Lemma store_undefined h p v : cell h p = None -> store p v h = Undefined.
Proof.
  destruct p as [|b off|]; simpl; try reflexivity.
  unfold store. destruct (h !! b) as [cs|] eqn:Hb; [|reflexivity].
  destruct (Z.leb_spec 0 off); simpl; [|reflexivity].
  intros Hnone. apply lookup_ge_None in Hnone.
  destruct (Z.ltb_spec off (Z.of_nat (length cs))); [lia|reflexivity].
Qed.

Lemma cell_upd_eq h p v old : cell h p = Some old -> cell (heap_upd h p v) p = Some v.
Proof.
  intros Hc. destruct (cell_Some_inv _ _ _ Hc) as (b & off & cs & -> & Hb & Hoff & Hcs).
  unfold heap_upd. rewrite Hb.
  destruct (Z.leb_spec 0 off); [|lia]. simpl. rewrite lookup_insert_eq.
  destruct (Z.leb_spec 0 off); [|lia].
  apply list_lookup_insert_eq. now apply lookup_lt_Some in Hcs.
Qed.

Lemma cell_upd_ne h p q v : q <> p -> cell (heap_upd h p v) q = cell h q.
Proof.
  intros Hne. destruct p as [|b off|]; try reflexivity.
  unfold heap_upd. destruct (h !! b) as [cs|] eqn:Hb; [|reflexivity].
  destruct (Z.leb_spec 0 off) as [Hoff|Hoff]; [|reflexivity].
  destruct q as [|b' off'|]; try reflexivity. simpl.
  destruct (decide (b = b')) as [<-|Hbb].
  - rewrite lookup_insert_eq, Hb.
    destruct (Z.leb_spec 0 off'); [|reflexivity].
    apply list_lookup_insert_ne. intros Heq.
    apply Hne. f_equal. lia.
  - now rewrite lookup_insert_ne.
Qed.

Lemma heap_upd_block_ne h p v b :
  (forall off, p <> Loc b off) -> heap_upd h p v !! b = h !! b.
Proof.
  intros Hne. destruct p as [|b' off|]; try reflexivity.
  unfold heap_upd. destruct (h !! b') as [cs|] eqn:Hb; [|reflexivity].
  destruct (0 <=? off); [|reflexivity].
  apply lookup_insert_ne. intros ->. now apply (Hne off).
Qed.

Lemma array_at_upd h p v q n : array_at h q n -> array_at (heap_upd h p v) q n.
Proof.
  intros (b & cs & -> & Hb & Hlen).
  destruct p as [|b' off|]; try (exists b, cs; now auto).
  unfold heap_upd. destruct (h !! b') as [cs'|] eqn:Hb'; [|exists b, cs; now auto].
  destruct (0 <=? off); [|exists b, cs; now auto].
  destruct (decide (b' = b)) as [->|Hbb].
  - exists b, (<[Z.to_nat off := v]> cs'). rewrite lookup_insert_eq.
    rewrite length_insert. split; [reflexivity|]. split; [reflexivity|]. congruence.
  - exists b, cs. rewrite lookup_insert_ne by exact Hbb. auto.
Qed.

Lemma allocated_upd h a n p v : allocated h a n -> allocated (heap_upd h p v) a n.
Proof.
  intros (Hh & Ht & Hne). repeat split; auto using array_at_upd.
Qed.

(** Cell [i] of an array of [n] cells exists exactly when [0 <= i < n]. *)
Lemma array_at_cell h p n i :
  array_at h p n -> 0 <= i < n -> is_Some (cell h (ptr_index p i)).
Proof.
  intros (b & cs & -> & Hb & Hlen) Hi. simpl. rewrite Hb.
  destruct (Z.leb_spec 0 (0 + i)); [|lia].
  apply lookup_lt_is_Some. lia.
Qed.

Lemma array_at_cell_out h p n i :
  array_at h p n -> ~ 0 <= i < n -> cell h (ptr_index p i) = None.
Proof.
  intros (b & cs & -> & Hb & Hlen) Hi. simpl. rewrite Hb.
  destruct (Z.leb_spec 0 (0 + i)); [|reflexivity].
  apply lookup_ge_None. lia.
Qed.

Lemma allocated_cells_ne h a n i j :
  allocated h a n ->
  ptr_index (TwoSegArray.heads a) i <> ptr_index (TwoSegArray.tails a) j.
Proof.
  intros ((b & cs & Hp & _) & (b' & cs' & Hp' & _) & Hne).
  rewrite Hp, Hp' in *. simpl. intros Heq. apply Hne. congruence.
Qed.

Lemma ptr_index_inj h p n i j :
  array_at h p n -> ptr_index p i = ptr_index p j -> i = j.
Proof.
  intros (b & cs & -> & _) Heq. simpl in Heq. injection Heq. lia.
Qed.

(** Running a bind whose first call returns. *)
Lemma bind_returns {A B} (c : M A) (k : A -> M B) h a h' :
  c h = Returns (a, h') -> bind c k h = k a h'.
Proof. intros Hc. unfold bind. now rewrite Hc. Qed.

Lemma bind_undefined {A B} (c : M A) (k : A -> M B) h :
  c h = Undefined -> bind c k h = Undefined.
Proof. intros Hc. unfold bind. now rewrite Hc. Qed.

(** ** The accessors against the codec *)

Lemma Head_operator_double_spec h H c :
  cell h (Head.head H) = Some c ->
  Head.operator_double H h = Returns (decodeHeadOnly c, h).
Proof.
  intros Hc. unfold Head.operator_double.
  rewrite (bind_returns _ _ _ _ _ (load_cell _ _ _ Hc)).
  unfold ret, decodeHeadOnly. now rewrite pd_lane0_set_ps.
Qed.

Lemma Head_assign_spec h H d old :
  cell h (Head.head H) = Some old ->
  Head.assign H d h = Returns (H, heap_upd h (Head.head H) (encodeHeadOnly d)).
Proof.
  intros Hc. unfold Head.assign.
  rewrite (bind_returns _ _ _ _ _ (store_cell _ _ _ _ Hc)).
  unfold ret. now rewrite ps_lane1_set_pd.
Qed.

Lemma Pair_operator_double_spec h P hd tl :
  cell h (Pair.head P) = Some hd ->
  cell h (Pair.tail P) = Some tl ->
  Pair.operator_double P h = Returns (decodeFull hd tl, h).
Proof.
  intros Hh Ht. unfold Pair.operator_double.
  rewrite (bind_returns _ _ _ _ _ (load_cell _ _ _ Hh)).
  rewrite (bind_returns _ _ _ _ _ (load_cell _ _ _ Ht)).
  unfold ret. now rewrite pd_lane0_set_ps.
Qed.

Lemma HeadsArray_set_spec h a id v old :
  cell h (ptr_index (TwoSegArray.heads a) id) = Some old ->
  HeadsArray.set a id v h =
  Returns (tt, heap_upd h (ptr_index (TwoSegArray.heads a) id) (encodeHeadOnly v)).
Proof.
  intros Hc. unfold HeadsArray.set. rewrite ps_lane1_set_pd.
  exact (store_cell _ _ _ _ Hc).
Qed.

Lemma PairsArray_set_spec h a id v oldh oldt :
  cell h (ptr_index (TwoSegArray.heads a) id) = Some oldh ->
  cell h (ptr_index (TwoSegArray.tails a) id) = Some oldt ->
  ptr_index (TwoSegArray.heads a) id <> ptr_index (TwoSegArray.tails a) id ->
  PairsArray.set a id v h =
  Returns (tt, heap_upd (heap_upd h (ptr_index (TwoSegArray.tails a) id) (encodeTail v))
                        (ptr_index (TwoSegArray.heads a) id) (encodeHeadOnly v)).
Proof.
  intros Hh Ht Hne. unfold PairsArray.set.
  rewrite ps_lane0_set_pd, ps_lane1_set_pd.
  rewrite (bind_returns _ _ _ _ _ (store_cell _ _ _ _ Ht)).
  eapply store_cell. rewrite cell_upd_ne by exact Hne. exact Hh.
Qed.

(** ** Full-precision round trip *)

(** C1. On an allocated array, writing the double [d] at index [i] with
    [TwoSegArray<true>::set] stores the upper half of its pattern in
    [heads[i]] and the lower half in [tails[i]], and converting the [Pair]
    accessor of that element back to [double] returns [d] bit for bit.
    This holds for every 64-bit pattern, hence for every finite double,
    both zeros and both infinities. *)
Theorem full_write_read_roundtrip h a n i d :
  allocated h a n -> 0 <= i < n -> is_u64 d ->
  exists h',
    PairsArray.set a i d h = Returns (tt, h') /\
    cell h' (ptr_index (TwoSegArray.heads a) i) = Some (encodeHeadOnly d) /\
    cell h' (ptr_index (TwoSegArray.tails a) i) = Some (encodeTail d) /\
    Pair.operator_double (PairsArray.at_ a i) h' = Returns (d, h') /\
    PairsArray.read a i h' = Returns (d, h').
Proof.
  intros Ha Hi Hd.
  pose proof Ha as (Hhs & Hts & _).
  destruct (array_at_cell _ _ _ _ Hhs Hi) as [oh Hoh].
  destruct (array_at_cell _ _ _ _ Hts Hi) as [ot Hot].
  pose proof (allocated_cells_ne _ _ _ i i Ha) as Hne.
  set (h' := heap_upd (heap_upd h (ptr_index (TwoSegArray.tails a) i) (encodeTail d))
                      (ptr_index (TwoSegArray.heads a) i) (encodeHeadOnly d)).
  exists h'. split; [eapply PairsArray_set_spec; eassumption|].
  assert (Hh' : cell h' (ptr_index (TwoSegArray.heads a) i) = Some (encodeHeadOnly d)).
  { eapply cell_upd_eq. rewrite cell_upd_ne by exact Hne. exact Hoh. }
  assert (Ht' : cell h' (ptr_index (TwoSegArray.tails a) i) = Some (encodeTail d)).
  { unfold h'. rewrite cell_upd_ne by (intros Heq; apply Hne; now symmetry).
    eapply cell_upd_eq. exact Hot. }
  split; [exact Hh'|]. split; [exact Ht'|].
  pose proof (Pair_operator_double_spec h' (PairsArray.at_ a i) _ _ Hh' Ht') as Hr.
  rewrite (decodeFull_encodeFull d Hd) in Hr.
  split; exact Hr.
Qed.

(** Both zeros, both infinities, the largest finite double and the
    smallest subnormal, written and read back at index 0. *)
Example roundtrip_special_values :
  (fun d => (do _ <- PairsArray.set example_array 0 d;
             PairsArray.read example_array 0) example_heap)
    <$> [0; 0x8000000000000000; 0x7FF0000000000000; 0xFFF0000000000000;
         0x7FEFFFFFFFFFFFFF; 1]
  = (fun d => Returns (d, <[0%nat := [encodeHeadOnly d; 0x400921FB]]>
                           (<[1%nat := [encodeTail d; 0x54442D18]]> example_heap)))
    <$> [0; 0x8000000000000000; 0x7FF0000000000000; 0xFFF0000000000000;
         0x7FEFFFFFFFFFFFFF; 1].
Proof. vm_compute. reflexivity. Qed.

(** ** Aliased views *)

Lemma encodeHeadOnly_idem_decode v t :
  encodeHeadOnly (decodeFull (encodeHeadOnly v) t) = encodeHeadOnly v.
Proof.
  rewrite encodeHeadOnly_decodeFull. apply wrap32_id, encodeHeadOnly_range.
Qed.

(** C3. On an allocated array, after [set(i, v)] through the reduced-only
    view, [read(i)] through the full view made earlier by
    [createFullPrecision] returns the concatenation of the upper half of
    [v] with the tail cell as it was; its head-decoded portion is
    [decodeHeadOnly (encodeHeadOnly v)]. *)
Theorem reduced_write_seen_by_full_view h a n i v :
  allocated h a n -> 0 <= i < n ->
  let fullview := HeadsArray.createFullPrecision a in
  exists h' t,
    cell h (ptr_index (TwoSegArray.tails a) i) = Some t /\
    HeadsArray.set a i v h = Returns (tt, h') /\
    PairsArray.read fullview i h' = Returns (decodeFull (encodeHeadOnly v) t, h') /\
    decodeHeadOnly (encodeHeadOnly (decodeFull (encodeHeadOnly v) t)) =
    decodeHeadOnly (encodeHeadOnly v).
Proof.
  intros Ha Hi fullview.
  pose proof Ha as (Hhs & Hts & _).
  destruct (array_at_cell _ _ _ _ Hhs Hi) as [oh Hoh].
  destruct (array_at_cell _ _ _ _ Hts Hi) as [t Ht].
  pose proof (allocated_cells_ne _ _ _ i i Ha) as Hne.
  set (h' := heap_upd h (ptr_index (TwoSegArray.heads a) i) (encodeHeadOnly v)).
  exists h', t. split; [exact Ht|].
  split; [now apply HeadsArray_set_spec with (old := oh)|].
  split.
  - unfold PairsArray.read, fullview, HeadsArray.createFullPrecision. simpl.
    apply Pair_operator_double_spec; simpl.
    + eapply cell_upd_eq. exact Hoh.
    + unfold h'. rewrite cell_upd_ne by (intros Heq; apply Hne; now symmetry).
      exact Ht.
  - now rewrite encodeHeadOnly_idem_decode.
Qed.

(** C4. On an allocated array, [set(i, v)] of the reduced-only view and
    assignment through the [Head] accessor of element [i] produce the same
    heap, in which [heads[i]] holds the upper half of [v], [tails[i]] and
    the cells of every other element are unchanged, and no cell other than
    [heads[i]] differs. *)
Theorem reduced_writes_touch_head_cell_only h a n i v :
  allocated h a n -> 0 <= i < n ->
  exists h',
    HeadsArray.set a i v h = Returns (tt, h') /\
    Head.assign (HeadsArray.at_ a i) v h = Returns (HeadsArray.at_ a i, h') /\
    cell h' (ptr_index (TwoSegArray.heads a) i) = Some (encodeHeadOnly v) /\
    cell h' (ptr_index (TwoSegArray.tails a) i) =
      cell h (ptr_index (TwoSegArray.tails a) i) /\
    (forall j, j <> i ->
       cell h' (ptr_index (TwoSegArray.heads a) j) =
         cell h (ptr_index (TwoSegArray.heads a) j) /\
       cell h' (ptr_index (TwoSegArray.tails a) j) =
         cell h (ptr_index (TwoSegArray.tails a) j)) /\
    (forall q, q <> ptr_index (TwoSegArray.heads a) i -> cell h' q = cell h q) /\
    allocated h' a n.
Proof.
  intros Ha Hi.
  pose proof Ha as (Hhs & Hts & _).
  destruct (array_at_cell _ _ _ _ Hhs Hi) as [oh Hoh].
  exists (heap_upd h (ptr_index (TwoSegArray.heads a) i) (encodeHeadOnly v)).
  split; [now apply HeadsArray_set_spec with (old := oh)|].
  split; [now apply Head_assign_spec with (old := oh)|].
  split; [eapply cell_upd_eq; exact Hoh|].
  split.
  { apply cell_upd_ne. intros Heq.
    now apply (allocated_cells_ne _ _ _ i i Ha). }
  split.
  { intros j Hj. split; apply cell_upd_ne.
    - intros Heq. apply Hj. exact (ptr_index_inj h _ n j i Hhs Heq).
    - intros Heq. now apply (allocated_cells_ne _ _ _ i j Ha). }
  split; [intros q Hq; now apply cell_upd_ne|].
  now apply allocated_upd.
Qed.

(** ** Compound arithmetic on a head accessor *)

Section Compound.
Context {arith : DoubleArith}.

Lemma compound_step h H c (f : Z -> Z -> Z) r :
  cell h (Head.head H) = Some c ->
  compound_result h H (f (decodeHeadOnly c) r)
    ((do t0 <- Head.operator_double H;
      let t1 := f t0 r in
      do _ <- Head.assign H t1;
      ret t1) h).
Proof.
  intros Hc.
  rewrite (bind_returns _ _ _ _ _ (Head_operator_double_spec _ _ _ Hc)).
  cbv zeta.
  rewrite (bind_returns _ _ _ _ _ (Head_assign_spec _ _ _ _ Hc)).
  eexists. split; [reflexivity|]. split.
  - eapply cell_upd_eq. exact Hc.
  - intros q Hq. now apply cell_upd_ne.
Qed.

(** C5. For a [Head] accessor whose cell holds [c] and a double [r], each
    of [+=], [-=], [*=], [/=] returns [t], the result of the double
    operation on [decodeHeadOnly c] and [r], untruncated; afterwards the
    head cell holds [encodeHeadOnly t] and every other cell, the tail
    included, is unchanged. *)
Theorem compound_assignment_stores_truncated h H r c :
  cell h (Head.head H) = Some c ->
  compound_result h H (dadd (decodeHeadOnly c) r) (Head.add_assign H r h) /\
  compound_result h H (dsub (decodeHeadOnly c) r) (Head.sub_assign H r h) /\
  compound_result h H (dmul (decodeHeadOnly c) r) (Head.mul_assign H r h) /\
  compound_result h H (ddiv (decodeHeadOnly c) r) (Head.div_assign H r h).
Proof.
  intros Hc. repeat split.
  - exact (compound_step h H c dadd r Hc).
  - exact (compound_step h H c dsub r Hc).
  - exact (compound_step h H c dmul r Hc).
  - exact (compound_step h H c ddiv r Hc).
Qed.
End Compound.

(** 2.5 + 1.0, 2.5 - 1.0, 2.5 * 3.0 and 2.5 / 3.0 in the round-to-nearest
    instance. *)
Example ieee754_sample :
  @dadd ieee754 0x4004000000000000 0x3FF0000000000000 = 0x400C000000000000 /\
  @dsub ieee754 0x4004000000000000 0x3FF0000000000000 = 0x3FF8000000000000 /\
  @dmul ieee754 0x4004000000000000 0x4008000000000000 = 0x401E000000000000 /\
  @ddiv ieee754 0x4004000000000000 0x4008000000000000 = 0x3FEAAAAAAAAAAAAB.
Proof. repeat split; vm_compute; reflexivity. Qed.

(** [heads[0] += 1.0] on the example: 3.5 is returned and stored exactly;
    [heads[0] /= 3.0] returns 0x3FEAAAAAAAAAAAAB and stores 0x3FEAAAAA. *)
Example compound_sample :
  (exists h', @Head.add_assign ieee754 (HeadsArray.at_ example_array 0)
                0x3FF0000000000000 example_heap = Returns (0x400C000000000000, h') /\
              cell h' (Loc 0 0) = Some 0x400C0000) /\
  (exists h', @Head.div_assign ieee754 (HeadsArray.at_ example_array 0)
                0x4008000000000000 example_heap = Returns (0x3FEAAAAAAAAAAAAB, h') /\
              cell h' (Loc 0 0) = Some 0x3FEAAAAA).
Proof. split; eexists; split; vm_compute; reflexivity. Qed.

(** ** A pair accessor made or assigned from a head accessor *)

(** C6. [Pair(const Head&)] never returns a pair with the copied head and
    a zero tail: whatever the argument and the heap, its first write goes
    through the still indeterminate [head] member, which is undefined
    behaviour. *)
Theorem pair_from_head_writes_through_unbound_members o h :
  Pair.from_Head o h = Undefined.
Proof.
  unfold Pair.from_Head, bind, load.
  destruct (cell h (Head.head o)); reflexivity.
Qed.

(** C10. Assigning a [Head] accessor to an existing [Pair] accessor copies
    the head cell and leaves the pair's tail cell as it was, so the pair
    then reads as [decodeFull hd t]; with a nonzero old tail [t] this is
    not [decodeHeadOnly hd]. *)
Theorem pair_assign_from_head_keeps_tail h P o hd t :
  cell h (Head.head o) = Some hd ->
  is_Some (cell h (Pair.head P)) ->
  cell h (Pair.tail P) = Some t ->
  Pair.head P <> Pair.tail P ->
  exists h',
    Pair.assign_Head P o h = Returns (P, h') /\
    cell h' (Pair.head P) = Some hd /\
    cell h' (Pair.tail P) = Some t /\
    Pair.operator_double P h' = Returns (decodeFull hd t, h') /\
    (is_u32 t -> t <> 0 -> decodeFull hd t <> decodeHeadOnly hd).
Proof.
  intros Ho [oh Hoh] Ht Hne.
  set (h' := heap_upd h (Pair.head P) hd).
  assert (Hh' : cell h' (Pair.head P) = Some hd) by (eapply cell_upd_eq; exact Hoh).
  assert (Ht' : cell h' (Pair.tail P) = Some t).
  { unfold h'. rewrite cell_upd_ne by (intros Heq; apply Hne; now symmetry). exact Ht. }
  exists h'. split.
  { unfold Pair.assign_Head.
    rewrite (bind_returns _ _ _ _ _ (load_cell _ _ _ Ho)).
    rewrite (bind_returns _ _ _ _ _ (store_cell _ _ _ _ Hoh)).
    reflexivity. }
  split; [exact Hh'|]. split; [exact Ht'|].
  split; [now apply Pair_operator_double_spec|].
  intros Hr Hnz. unfold decodeHeadOnly. rewrite !decodeFull_add.
  rewrite (wrap32_id t Hr), (wrap32_id 0) by (unfold is_u32; lia). lia.
Qed.

(** ** Release *)

Lemma example_allocated : allocated example_heap example_array 2.
Proof.
  repeat split.
  - exists 0%nat, [0x40040000; 0x400921FB]. repeat split; reflexivity.
  - exists 1%nat, [0; 0x54442D18]. repeat split; reflexivity.
  - discriminate.
Qed.

Lemma example_is_composite : composite example_heap example_composite 2.
Proof. repeat split; try reflexivity; try apply example_allocated. Qed.

Lemma HeadsArray_del_allocated h a n :
  allocated h a n ->
  exists h', HeadsArray.del a h = Returns (TwoSegArray.mk Null Null, h').
Proof.
  intros ((bh & hs & Hh & Hbh & _) & (bt & ts & Ht & Hbt & _) & Hne).
  unfold HeadsArray.del. rewrite Hh, Ht in *. simpl.
  unfold bind at 1. unfold delete_array at 1. simpl. rewrite Hbh.
  unfold bind at 1. unfold delete_array at 1. simpl.
  rewrite lookup_delete_ne by congruence. rewrite Hbt.
  eexists. reflexivity.
Qed.

Lemma HeadsArray_del_null h :
  HeadsArray.del (TwoSegArray.mk Null Null) h = Returns (TwoSegArray.mk Null Null, h).
Proof. reflexivity. Qed.

(** C8 (as amended). After [delSegments] on a composite array the
    segment pointers of its reduced-only view are null, and a second
    [delSegments] returns normally with the object and the heap unchanged:
    the null guards of [del] skip both [delete[]]s and nothing is reported
    to the caller. *)
Theorem second_delSegments_is_silent_noop h a n :
  composite h a n ->
  exists a1 h1,
    ManSegArray.delSegments a h = Returns (a1, h1) /\
    HeadsArray.isAlloc (ManSegArray.heads a1) = false /\
    ManSegArray.delSegments a1 h1 = Returns (a1, h1).
Proof.
  intros (Ha & _ & _).
  destruct (HeadsArray_del_allocated _ _ _ Ha) as [h1 Hdel].
  eexists _, h1. split.
  { unfold ManSegArray.delSegments.
    rewrite (bind_returns _ _ _ _ _ Hdel). reflexivity. }
  split; [reflexivity|].
  unfold ManSegArray.delSegments. simpl.
  rewrite (bind_returns _ _ _ _ _ (HeadsArray_del_null h1)).
  unfold ret. simpl. destruct (is_null (ManSegArray.full a)); reflexivity.
Qed.

(** C8, counterexample. Releasing the storage of a freshly created
    two-element array twice: the second call returns, it does not report
    [DoubleRelease] (nor any other error). *)
Lemma double_release_not_reported :
  let twice := (do a <- ManSegArray.create example_junk 2;
                do a1 <- ManSegArray.delSegments a;
                ManSegArray.delSegments a1) ∅ in
  twice = Returns (ManSegArray.mk (TwoSegArray.mk Null Null)
                     (TwoSegArray.mk (Loc 0 0) (Loc 1 0)) Null 0, ∅) /\
  twice <> Raises DoubleRelease /\
  forall e, twice <> Raises e.
Proof.
  assert (Hrun : (do a <- ManSegArray.create example_junk 2;
                  do a1 <- ManSegArray.delSegments a;
                  ManSegArray.delSegments a1) ∅ =
                 Returns (ManSegArray.mk (TwoSegArray.mk Null Null)
                     (TwoSegArray.mk (Loc 0 0) (Loc 1 0)) Null 0, ∅))
    by (vm_compute; reflexivity).
  cbv zeta. rewrite Hrun. repeat split; intros; discriminate.
Qed.

(** ** Indices outside the array *)

(** C9 (as amended). On an allocated array of length [n]: with [id] in
    [[0, n)), [read], [set] and the accessors returned by [operator[]]
    work on the cells of element [id]; with [id] outside, no bounds check
    exists and no error is reported: [operator[]] still hands back an
    accessor for the address [id] cells past the start, and [read], [set]
    and every use of that accessor have undefined behaviour. *)
Theorem element_access_is_unchecked h a n id v :
  allocated h a n ->
  (0 <= id < n ->
     exists c t h1 h2,
       cell h (ptr_index (TwoSegArray.heads a) id) = Some c /\
       cell h (ptr_index (TwoSegArray.tails a) id) = Some t /\
       HeadsArray.read a id h = Returns (decodeHeadOnly c, h) /\
       Head.operator_double (HeadsArray.at_ a id) h = Returns (decodeHeadOnly c, h) /\
       HeadsArray.set a id v h = Returns (tt, h1) /\
       PairsArray.read a id h = Returns (decodeFull c t, h) /\
       Pair.operator_double (PairsArray.at_ a id) h = Returns (decodeFull c t, h) /\
       PairsArray.set a id v h = Returns (tt, h2)) /\
  (~ 0 <= id < n ->
     HeadsArray.at_ a id = Head.mk (ptr_index (TwoSegArray.heads a) id) /\
     HeadsArray.read a id h = Undefined /\
     Head.operator_double (HeadsArray.at_ a id) h = Undefined /\
     Head.assign (HeadsArray.at_ a id) v h = Undefined /\
     HeadsArray.set a id v h = Undefined /\
     PairsArray.read a id h = Undefined /\
     Pair.operator_double (PairsArray.at_ a id) h = Undefined /\
     PairsArray.set a id v h = Undefined).
Proof.
  intros Ha. pose proof Ha as (Hhs & Hts & _). split; intros Hid.
  - destruct (array_at_cell _ _ _ _ Hhs Hid) as [c Hc].
    destruct (array_at_cell _ _ _ _ Hts Hid) as [t Ht].
    exists c, t. eexists _, _.
    split; [exact Hc|]. split; [exact Ht|].
    split; [now apply Head_operator_double_spec|].
    split; [now apply Head_operator_double_spec|].
    split; [now apply HeadsArray_set_spec with (old := c)|].
    split; [now apply Pair_operator_double_spec|].
    split; [now apply Pair_operator_double_spec|].
    apply PairsArray_set_spec with (oldh := c) (oldt := t); auto.
    apply (allocated_cells_ne _ _ _ id id Ha).
  - pose proof (array_at_cell_out _ _ _ _ Hhs Hid) as Hc.
    pose proof (array_at_cell_out _ _ _ _ Hts Hid) as Ht.
    assert (Hrd : Head.operator_double (HeadsArray.at_ a id) h = Undefined).
    { unfold Head.operator_double. apply bind_undefined.
      now apply load_undefined. }
    assert (Hst : HeadsArray.set a id v h = Undefined).
    { unfold HeadsArray.set. now apply store_undefined. }
    assert (Hpr : Pair.operator_double (PairsArray.at_ a id) h = Undefined).
    { unfold Pair.operator_double. apply bind_undefined.
      now apply load_undefined. }
    repeat split; auto.
    + unfold Head.assign. apply bind_undefined. now apply store_undefined.
    + unfold PairsArray.set. apply bind_undefined. now apply store_undefined.
Qed.

(** C9, counterexample. Index 2 of the two-element example array:
    [operator[]] returns an accessor one past the end, and neither [read]
    nor [set] reports [IndexOutOfRange]. *)
Lemma out_of_range_not_reported :
  HeadsArray.at_ example_array 2 = Head.mk (Loc 0 2) /\
  HeadsArray.read example_array 2 example_heap = Undefined /\
  HeadsArray.read example_array 2 example_heap <> Raises IndexOutOfRange /\
  HeadsArray.set example_array 2 0x3FF0000000000000 example_heap = Undefined /\
  HeadsArray.set example_array 2 0x3FF0000000000000 example_heap
    <> Raises IndexOutOfRange /\
  PairsArray.read example_array 2 example_heap <> Raises IndexOutOfRange /\
  PairsArray.set example_array 2 0x3FF0000000000000 example_heap
    <> Raises IndexOutOfRange.
Proof.
  assert (H1 : HeadsArray.read example_array 2 example_heap = Undefined)
    by (vm_compute; reflexivity).
  assert (H2 : HeadsArray.set example_array 2 0x3FF0000000000000 example_heap = Undefined)
    by (vm_compute; reflexivity).
  assert (H3 : PairsArray.read example_array 2 example_heap = Undefined)
    by (vm_compute; reflexivity).
  assert (H4 : PairsArray.set example_array 2 0x3FF0000000000000 example_heap = Undefined)
    by (vm_compute; reflexivity).
  rewrite H1, H2, H3, H4. repeat split; try reflexivity; discriminate.
Qed.

(** ** Allocation *)

Lemma new_array_spec init h :
  exists b, h !! b = None /\ new_array init h = Returns (Loc b 0, <[b := init]> h).
Proof.
  exists (fresh (dom h)). split; [|reflexivity].
  apply not_elem_of_dom, is_fresh.
Qed.

Lemma HeadsArray_alloc_allocated junk n h :
  0 <= n ->
  exists a h', HeadsArray.alloc junk n h = Returns (a, h') /\ allocated h' a n /\
               (forall b cs, h !! b = Some cs -> h' !! b = Some cs).
Proof.
  intros Hn. unfold HeadsArray.alloc, new_float_uninit, new_float_zero.
  destruct (new_array_spec ((fun k => wrap32 (junk k)) <$> seq 0 (Z.to_nat n)) h)
    as (bh & Hbh & Hnh).
  rewrite (bind_returns _ _ _ _ _ Hnh).
  match goal with |- context [ bind (new_array ?i) _ ?h1 ] =>
    destruct (new_array_spec i h1) as (bt & Hbt & Hnt) end.
  rewrite (bind_returns _ _ _ _ _ Hnt).
  assert (Hne : bh <> bt).
  { intros ->. rewrite lookup_insert_eq in Hbt. discriminate. }
  eexists _, _. split; [reflexivity|]. split.
  - repeat split; simpl.
    + eexists bh, _. split; [reflexivity|]. split.
      * rewrite lookup_insert_ne by congruence. apply lookup_insert_eq.
      * rewrite length_fmap, length_seq. lia.
    + eexists bt, _. split; [reflexivity|]. split.
      * apply lookup_insert_eq.
      * rewrite length_replicate. lia.
    + congruence.
  - intros b cs Hb.
    assert (Hb1 : bh <> b) by (intros ->; congruence).
    assert (Hb2 : bt <> b).
    { intros ->. rewrite lookup_insert_ne in Hbt by exact Hb1. congruence. }
    now rewrite !lookup_insert_ne.
Qed.

Lemma create_composite junk n h :
  0 <= n ->
  exists a h', ManSegArray.create junk n h = Returns (a, h') /\ composite h' a n /\
               ManSegArray.full a = Null.
Proof.
  intros Hn. destruct (HeadsArray_alloc_allocated junk n h Hn) as (hs & h' & Hal & Ha & _).
  unfold ManSegArray.create. rewrite (bind_returns _ _ _ _ _ Hal).
  eexists _, h'. split; [reflexivity|]. split; [|reflexivity].
  repeat split; try apply Ha.
Qed.

(** ** Building the mirror *)

Section CopyLoop.
Variables (this : ManSegArray.t) (bh bf : nat) (tl : ptr) (hs : list Z) (n : Z).
Hypothesis Hheads : ManSegArray.heads this = TwoSegArray.mk (Loc bh 0) tl.
Hypothesis Hfull : ManSegArray.full this = Loc bf 0.
Hypothesis Hlen : ManSegArray.length this = n.
Hypothesis Hblocks : bh <> bf.
Hypothesis Hhs : Z.of_nat (length hs) = n.

(** One iteration, [full[i] = heads[i]], followed by [k]. *)
Lemma copy_body {A} (k : M A) h fs i c :
  h !! bh = Some hs -> h !! bf = Some fs -> Z.of_nat (length fs) = n ->
  0 <= i < n -> n <= 2 ^ 64 ->
  hs !! Z.to_nat i = Some c ->
  (do v <- Head.operator_double (HeadsArray.at_ (ManSegArray.heads this) i);
   do _ <- store (ptr_index (ManSegArray.full this) i) v;
   k) h =
  k (<[bf := <[Z.to_nat i := decodeHeadOnly c]> fs]> h).
Proof.
  intros Hh Hf Hfl Hi Hn Hc.
  rewrite Hheads, Hfull.
  assert (Hcell : cell h (Head.head (HeadsArray.at_ (TwoSegArray.mk (Loc bh 0) tl) i))
                  = Some c).
  { simpl. rewrite Hh. destruct (Z.leb_spec 0 (0 + i)); [|lia].
    now replace (0 + i) with i by lia. }
  rewrite (bind_returns _ _ _ _ _ (Head_operator_double_spec _ _ _ Hcell)).
  assert (Hst : store (ptr_index (Loc bf 0) i) (decodeHeadOnly c) h =
                Returns (tt, <[bf := <[Z.to_nat i := decodeHeadOnly c]> fs]> h)).
  { unfold store. simpl. rewrite Hf.
    destruct (Z.leb_spec 0 (0 + i)); [|lia].
    destruct (Z.ltb_spec (0 + i) (Z.of_nat (length fs))); [|lia].
    simpl. now replace (0 + i) with i by lia. }
  now rewrite (bind_returns _ _ _ _ _ Hst).
Qed.

(** With [n <= INT_MAX] the loop runs to the end and has then replaced
    the cells of [full] from [i] on by the decoded heads. *)
Lemma copy_loop_fills fuel : forall i h fs,
  h !! bh = Some hs -> h !! bf = Some fs -> Z.of_nat (length fs) = n ->
  0 <= i <= n -> n <= INT_MAX -> n - i <= Z.of_nat fuel ->
  ManSegArray.copy_loop fuel this i h =
  Returns (tt, <[bf := take (Z.to_nat i) fs ++
                        (decodeHeadOnly <$> drop (Z.to_nat i) hs)]> h).
Proof.
  unfold INT_MAX.
  assert (Hexit : forall h fs, h !! bf = Some fs -> Z.of_nat (length fs) = n ->
            @ret unit tt h =
            Returns (tt, <[bf := take (Z.to_nat n) fs ++
                                  (decodeHeadOnly <$> drop (Z.to_nat n) hs)]> h)).
  { intros h fs Hf Hfl. rewrite take_ge, drop_ge by lia. simpl. rewrite app_nil_r.
    unfold ret. now rewrite insert_id. }
  induction fuel as [|fuel IH]; intros i h fs Hh Hf Hfl Hi Hn Hfuel.
  - assert (i = n) by lia. subst i. cbn [ManSegArray.copy_loop].
    rewrite (wrap64_id n) by (unfold is_u64; lia). rewrite Hlen, Z.ltb_irrefl.
    now apply Hexit.
  - cbn [ManSegArray.copy_loop].
    rewrite !(wrap64_id i) by (unfold is_u64; lia). rewrite Hlen.
    destruct (Z.ltb_spec i n) as [Hlt|Hge].
    + destruct (lookup_lt_is_Some_2 hs (Z.to_nat i)) as [c Hc]; [lia|].
      rewrite (copy_body _ h fs i c Hh Hf Hfl) by (try lia; exact Hc).
      destruct (Z.eqb_spec i INT_MAX) as [Heq|_]; [unfold INT_MAX in Heq; lia|].
      rewrite (IH (i + 1) _ (<[Z.to_nat i := decodeHeadOnly c]> fs)).
      * f_equal. f_equal. rewrite insert_insert_eq. f_equal.
        replace (Z.to_nat (i + 1)) with (S (Z.to_nat i)) by lia.
        rewrite (drop_S hs c (Z.to_nat i) Hc). simpl.
        rewrite (take_S_r _ _ (decodeHeadOnly c)).
        -- rewrite take_insert_ge by lia. now rewrite <- app_assoc.
        -- apply list_lookup_insert_eq. lia.
      * now rewrite lookup_insert_ne.
      * apply lookup_insert_eq.
      * rewrite length_insert. exact Hfl.
      * lia.
      * lia.
      * lia.
    + assert (i = n) by lia. subst i. now apply Hexit.
Qed.

(** With [n > INT_MAX] the counter reaches [INT_MAX] while the loop
    condition still holds, and [++i] overflows. *)
Lemma copy_loop_overflows fuel : forall i h fs,
  h !! bh = Some hs -> h !! bf = Some fs -> Z.of_nat (length fs) = n ->
  0 <= i <= INT_MAX -> INT_MAX < n -> n <= 2 ^ 64 -> INT_MAX - i < Z.of_nat fuel ->
  ManSegArray.copy_loop fuel this i h = Undefined.
Proof.
  unfold INT_MAX.
  induction fuel as [|fuel IH]; intros i h fs Hh Hf Hfl Hi Hn Hn64 Hfuel; [lia|].
  cbn [ManSegArray.copy_loop].
  rewrite !(wrap64_id i) by (unfold is_u64; lia). rewrite Hlen.
  destruct (Z.ltb_spec i n) as [Hlt|Hge]; [|lia].
  destruct (lookup_lt_is_Some_2 hs (Z.to_nat i)) as [c Hc]; [lia|].
  rewrite (copy_body _ h fs i c Hh Hf Hfl) by (try lia; exact Hc).
  destruct (Z.eqb_spec i INT_MAX) as [Heq|Hneq]; [reflexivity|].
  unfold INT_MAX in Hneq.
  apply (IH (i + 1) _ (<[Z.to_nat i := decodeHeadOnly c]> fs)).
  - now rewrite lookup_insert_ne.
  - apply lookup_insert_eq.
  - rewrite length_insert. exact Hfl.
  - lia.
  - lia.
  - lia.
  - lia.
Qed.
End CopyLoop.

Lemma composite_blocks h a n :
  composite h a n ->
  exists bh bt hs,
    ManSegArray.heads a = TwoSegArray.mk (Loc bh 0) (Loc bt 0) /\
    h !! bh = Some hs /\ Z.of_nat (length hs) = n /\ ManSegArray.length a = n.
Proof.
  intros (((bh & hs & Hh & Hbh & Hlh) & (bt & ts & Ht & _) & _) & _ & Hlen).
  exists bh, bt, hs. destruct (ManSegArray.heads a) as [ph pt].
  simpl in *. subst. auto.
Qed.

(** For a length that fits the [int] counter, [copytoIEEEdouble] returns
    with [full] bound to a block that was not live before, holding the
    head-only decoding of every head cell; no other block changes. *)
Lemma copytoIEEEdouble_fills junk h a n :
  composite h a n -> n <= INT_MAX ->
  exists bh bf hs,
    TwoSegArray.heads (ManSegArray.heads a) = Loc bh 0 /\
    h !! bh = Some hs /\ h !! bf = None /\
    ManSegArray.copytoIEEEdouble junk a h =
    Returns (ManSegArray.mk (ManSegArray.heads a) (ManSegArray.pairs a) (Loc bf 0) n,
             <[bf := decodeHeadOnly <$> hs]> h).
Proof.
  intros Hc Hn.
  destruct (composite_blocks _ _ _ Hc) as (bh & bt & hs & Hheads & Hbh & Hlh & Hlen).
  unfold ManSegArray.copytoIEEEdouble, new_double_uninit. rewrite Hlen.
  match goal with |- context [ bind (new_array ?i) _ _ ] =>
    destruct (new_array_spec i h) as (bf & Hbf & Hnew); set (fs := i) in * end.
  rewrite (bind_returns _ _ _ _ _ Hnew).
  assert (Hne : bh <> bf) by (intros ->; congruence).
  assert (Hfl : Z.of_nat (length fs) = n).
  { unfold fs. rewrite length_fmap, length_seq. lia. }
  exists bh, bf, hs. rewrite Hheads. simpl.
  split; [reflexivity|]. split; [exact Hbh|]. split; [exact Hbf|].
  erewrite bind_returns.
  2:{ apply (copy_loop_fills _ bh bf (Loc bt 0) hs n) with (fs := fs); simpl; auto.
      - now rewrite lookup_insert_ne.
      - apply lookup_insert_eq.
      - lia.
      - lia. }
  unfold ret. simpl. rewrite insert_insert_eq. reflexivity.
Qed.

(** The same, cell by cell: [full[i]] is the head-only decoding of
    [heads[i]], and the cells that existed before are unchanged. *)
Lemma copytoIEEEdouble_cells junk h a n i :
  composite h a n -> n <= INT_MAX -> 0 <= i < n ->
  exists a' h' c,
    ManSegArray.copytoIEEEdouble junk a h = Returns (a', h') /\
    ManSegArray.heads a' = ManSegArray.heads a /\
    ManSegArray.length a' = n /\
    cell h (ptr_index (TwoSegArray.heads (ManSegArray.heads a)) i) = Some c /\
    cell h' (ptr_index (ManSegArray.full a') i) = Some (decodeHeadOnly c) /\
    (forall q, is_Some (cell h q) -> cell h' q = cell h q).
Proof.
  intros Hc Hn Hi.
  destruct (copytoIEEEdouble_fills junk h a n Hc Hn) as (bh & bf & hs & Hh & Hbh & Hbf & Hrun).
  pose proof Hc as ((Hhs & _) & _).
  destruct (array_at_cell _ _ _ _ Hhs Hi) as [c Hcell].
  eexists _, _, c. split; [exact Hrun|]. simpl.
  split; [reflexivity|]. split; [reflexivity|]. split; [exact Hcell|]. split.
  - rewrite Hh in Hcell. simpl in Hcell |- *. rewrite Hbh in Hcell.
    rewrite lookup_insert_eq.
    destruct (0 <=? 0 + i); [|discriminate].
    now rewrite list_lookup_fmap, Hcell.
  - intros q [v Hq].
    destruct (cell_Some_inv _ _ _ Hq) as (b & off & cs & -> & Hb & _).
    simpl. rewrite lookup_insert_ne by (intros ->; congruence). reflexivity.
Qed.

(** For a longer array the [int] counter overflows before the loop
    condition fails. *)
Lemma copytoIEEEdouble_overflows junk h a n :
  composite h a n -> INT_MAX < n -> n <= 2 ^ 64 ->
  ManSegArray.copytoIEEEdouble junk a h = Undefined.
Proof.
  intros Hc Hn Hn64.
  destruct (composite_blocks _ _ _ Hc) as (bh & bt & hs & Hheads & Hbh & Hlh & Hlen).
  unfold ManSegArray.copytoIEEEdouble, new_double_uninit. rewrite Hlen.
  match goal with |- context [ bind (new_array ?i) _ _ ] =>
    destruct (new_array_spec i h) as (bf & Hbf & Hnew); set (fs := i) in * end.
  rewrite (bind_returns _ _ _ _ _ Hnew).
  assert (Hne : bh <> bf) by (intros ->; congruence).
  assert (Hfl : Z.of_nat (length fs) = n).
  { unfold fs. rewrite length_fmap, length_seq. lia. }
  apply bind_undefined.
  apply (copy_loop_overflows _ bh bf (Loc bt 0) hs n) with (fs := fs); auto.
  - now rewrite lookup_insert_ne.
  - apply lookup_insert_eq.
  - unfold INT_MAX. lia.
  - unfold INT_MAX in *. lia.
Qed.

(** C7, at the failing input. A composite array of 2^31 + 1 elements:
    [copytoIEEEdouble] does not return a filled mirror; its [int] counter
    is incremented past [INT_MAX], which is undefined behaviour. *)
Theorem mirror_counter_overflows_past_int_max :
  (do a <- ManSegArray.create example_junk 2147483649;
   ManSegArray.copytoIEEEdouble example_junk a) ∅ = Undefined.
Proof.
  destruct (create_composite example_junk 2147483649 ∅) as (a & h & Hcr & Hc & _); [lia|].
  rewrite (bind_returns _ _ _ _ _ Hcr).
  apply (copytoIEEEdouble_overflows _ _ _ _ Hc); unfold INT_MAX; lia.
Qed.

(** Within the range of the counter the mirror is the head-only decoding
    of the heads, also where [setPair] has stored a tail. *)
Example mirror_of_example :
  (do _ <- HeadsArray.setPair example_array 0 0x400921FB54442D18;
   do a <- ManSegArray.copytoIEEEdouble example_junk example_composite;
   do x <- load (ptr_index (ManSegArray.full a) 0);
   do y <- load (ptr_index (ManSegArray.full a) 1);
   ret (x, y)) example_heap =
  Returns ((0x400921FB00000000, 0x400921FB00000000),
           <[2%nat := [0x400921FB00000000; 0x400921FB00000000]]>
             (<[1%nat := [0x54442D18; 0x54442D18]]>
                (<[0%nat := [0x400921FB; 0x400921FB]]> ∅))).
Proof. vm_compute. reflexivity. Qed.

(** ** Precision of the head-only round trip *)

Local Open Scope Q_scope.

Lemma scaled_rel_err (sg c y x eps : Q) :
  sg == 1 \/ sg == -1 -> 0 < c -> 0 < y -> 0 <= x -> x <= eps * y ->
  Qabs (sg * (y - x) * c - sg * y * c) / Qabs (sg * y * c) <= eps.
Proof.
  intros Hsg Hc Hy Hx Hxy.
  assert (Hyc : 0 < y * c) by (apply Qmult_lt_0_compat; assumption).
  assert (Hxc : 0 <= x * c) by (apply Qmult_le_0_compat; [assumption|now apply Qlt_le_weak]).
  assert (Hden : Qabs (sg * y * c) == y * c).
  { destruct Hsg as [-> | ->].
    - rewrite Qabs_pos; [ring|]. setoid_replace (1 * y * c) with (y * c) using relation Qeq by ring.
      now apply Qlt_le_weak.
    - rewrite Qabs_neg; [ring|]. setoid_replace (-1 * y * c) with (- (y * c)) using relation Qeq by ring.
      apply (Qopp_le_compat 0 (y * c)). now apply Qlt_le_weak. }
  assert (Hnum : Qabs (sg * (y - x) * c - sg * y * c) == x * c).
  { destruct Hsg as [-> | ->].
    - setoid_replace (1 * (y - x) * c - 1 * y * c) with (- (x * c)) using relation Qeq by ring.
      rewrite Qabs_opp. now apply Qabs_pos.
    - setoid_replace (-1 * (y - x) * c - -1 * y * c) with (x * c) using relation Qeq by ring.
      now apply Qabs_pos. }
  rewrite Hden, Hnum.
  apply Qle_shift_div_r; [exact Hyc|].
  setoid_replace (eps * (y * c)) with ((eps * y) * c) using relation Qeq by ring.
  apply Qmult_le_compat_r; [exact Hxy|now apply Qlt_le_weak].
Qed.

Local Close Scope Q_scope.
Local Open Scope Z_scope.

(** The head-only round trip keeps bits 32..63 and clears the rest. *)
Lemma testbit_head_roundtrip d k :
  0 <= k ->
  Z.testbit (decodeHeadOnly (encodeHeadOnly d)) k =
  Z.testbit d k && (32 <=? k) && (k <? 64).
Proof.
  intros Hk. unfold decodeHeadOnly, decodeFull, encodeHeadOnly.
  rewrite Z.lor_spec, (testbit_wrap32 0), Z.testbit_0_l, orb_false_r by lia.
  destruct (Z.leb_spec 32 k).
  - rewrite Z.shiftl_spec, !testbit_wrap32, Z.shiftr_spec by lia.
    replace (k - 32 + 32) with k by lia.
    destruct (Z.ltb_spec (k - 32) 32), (Z.ltb_spec k 64); try lia;
      now rewrite ?andb_true_r, ?andb_false_r.
  - rewrite Z.shiftl_spec, Z.testbit_neg_r by lia.
    now rewrite andb_false_r.
Qed.

Lemma testbit_land_ones z n k :
  0 <= n -> 0 <= k -> Z.testbit (Z.land z (Z.ones n)) k = Z.testbit z k && (k <? n).
Proof.
  intros Hn Hk. now rewrite Z.land_spec, Z.testbit_ones_nonneg by lia.
Qed.

Lemma sign_bit_head_roundtrip d :
  sign_bit (decodeHeadOnly (encodeHeadOnly d)) = sign_bit d.
Proof.
  unfold sign_bit. rewrite testbit_head_roundtrip by lia.
  now rewrite !andb_true_r.
Qed.

Lemma biased_exp_head_roundtrip d :
  biased_exp (decodeHeadOnly (encodeHeadOnly d)) = biased_exp d.
Proof.
  unfold biased_exp. apply Z.bits_inj'. intros k Hk.
  rewrite !testbit_land_ones, !Z.shiftr_spec, testbit_head_roundtrip by lia.
  destruct (Z.ltb_spec k 11); [|now rewrite !andb_false_r].
  destruct (Z.leb_spec 32 (k + 52)), (Z.ltb_spec (k + 52) 64); try lia.
  now rewrite !andb_true_r.
Qed.

Lemma fraction_range d : 0 <= fraction d < 2 ^ 52.
Proof.
  unfold fraction. rewrite Z.land_ones by lia. apply Z.mod_pos_bound. lia.
Qed.

Lemma fraction_head_roundtrip d :
  fraction (decodeHeadOnly (encodeHeadOnly d)) = fraction d - wrap32 d /\
  0 <= wrap32 d < 2 ^ 32 /\ 0 <= fraction (decodeHeadOnly (encodeHeadOnly d)).
Proof.
  assert (Hdisj : Z.land (fraction (decodeHeadOnly (encodeHeadOnly d))) (wrap32 d) = 0).
  { unfold fraction. apply Z.bits_inj'. intros k Hk.
    rewrite Z.land_spec, testbit_land_ones, testbit_head_roundtrip, testbit_wrap32,
      Z.testbit_0_l by lia.
    destruct (Z.leb_spec 32 k), (Z.ltb_spec k 32); try lia;
      now rewrite ?andb_false_r. }
  assert (Hjoin : Z.lor (fraction (decodeHeadOnly (encodeHeadOnly d))) (wrap32 d) = fraction d).
  { unfold fraction. apply Z.bits_inj'. intros k Hk.
    rewrite Z.lor_spec, !testbit_land_ones, testbit_head_roundtrip, testbit_wrap32 by lia.
    destruct (Z.leb_spec 32 k), (Z.ltb_spec k 32), (Z.ltb_spec k 52), (Z.ltb_spec k 64);
      try lia; now rewrite ?andb_true_r, ?andb_false_r, ?orb_false_r, ?orb_false_l. }
  rewrite <- Z.lxor_lor, <- Z.add_nocarry_lxor in Hjoin by exact Hdisj.
  split; [lia|]. split; [apply wrap32_range|].
  apply fraction_range.
Qed.

Lemma bits2SF_normal d :
  is_normal d = true ->
  bits2SF d = S754_finite (sign_bit d) (Z.to_pos (2 ^ 52 + fraction d)) (biased_exp d - 1075).
Proof.
  unfold is_normal, bits2SF. intros Hn. apply andb_prop in Hn as [H1 H2].
  apply Z.leb_le in H1, H2.
  destruct (Z.eqb_spec (biased_exp d) 0); [lia|].
  destruct (Z.eqb_spec (biased_exp d) 2047); [lia|].
  pose proof (fraction_range d) as Hf.
  destruct (2 ^ 52 + fraction d) as [|p|p] eqn:Hp; try lia.
  reflexivity.
Qed.

Lemma B2Q_normal d :
  is_normal d = true ->
  B2Q d = ((if sign_bit d then (-1) else 1) * inject_Z (2 ^ 52 + fraction d)
           * Qpower 2 (biased_exp d - 1075))%Q.
Proof.
  intros Hn. unfold B2Q. rewrite (bits2SF_normal d Hn). unfold SF2Q.
  pose proof (fraction_range d) as Hf.
  rewrite Z2Pos.id by lia. reflexivity.
Qed.

Lemma is_normal_head_roundtrip d :
  is_normal (decodeHeadOnly (encodeHeadOnly d)) = is_normal d.
Proof. unfold is_normal. now rewrite biased_exp_head_roundtrip. Qed.

Lemma MaxSingleSegmentPrecision_value :
  (B2Q MaxSingleSegmentPrecision <= 1 # 1000000)%Q /\
  (1 # 1048576 <= B2Q MaxSingleSegmentPrecision)%Q.
Proof. split; apply Qle_bool_iff; vm_compute; reflexivity. Qed.

(** Truncating a normal double to its head loses less than 2^-20 of it. *)
Lemma rel_err_head_roundtrip d :
  is_normal d = true ->
  (rel_err (decodeHeadOnly (encodeHeadOnly d)) d <= 1 # 1048576)%Q.
Proof.
  intros Hn. unfold rel_err.
  rewrite (B2Q_normal d Hn).
  rewrite (B2Q_normal _ (eq_trans (is_normal_head_roundtrip d) Hn)).
  rewrite sign_bit_head_roundtrip, biased_exp_head_roundtrip.
  destruct (fraction_head_roundtrip d) as (Hfr & Hr & Hf').
  pose proof (fraction_range d) as Hf.
  set (x := wrap32 d) in *. set (m := fraction d) in *.
  rewrite Hfr.
  assert (Hsub : (inject_Z (2 ^ 52 + (m - x)) == inject_Z (2 ^ 52 + m) - inject_Z x)%Q).
  { replace (2 ^ 52 + m) with ((2 ^ 52 + (m - x)) + x) by lia.
    rewrite (inject_Z_plus (2 ^ 52 + (m - x)) x). ring. }
  rewrite Hsub.
  apply scaled_rel_err.
  - destruct (sign_bit d); [right|left]; reflexivity.
  - now apply Qpower_0_lt.
  - rewrite <- (Zlt_Qlt 0). lia.
  - rewrite <- (Zle_Qle 0). lia.
  - apply Qle_trans with (inject_Z (2 ^ 32)); [rewrite <- Zle_Qle; lia|].
    apply Qle_trans with ((1 # 1048576) * inject_Z (2 ^ 52))%Q.
    + apply Qle_bool_iff. vm_compute. reflexivity.
    + apply Qmult_le_l; [reflexivity|]. rewrite <- Zle_Qle. lia.
Qed.

(** C2 (as amended). For every normal double [d] (biased exponent 1 to
    2046, hence finite and nonzero), assigning [d] through a [Head]
    accessor and converting the accessor back to [double] yields
    [decodeHeadOnly (encodeHeadOnly d)], whose relative error against [d]
    is at most [MaxSingleSegmentPrecision], the double nearest to 1e-6,
    and so at most 1e-6. *)
Theorem head_only_roundtrip_error_normal h H d old :
  cell h (Head.head H) = Some old ->
  is_normal d = true ->
  exists h' d',
    (do _ <- Head.assign H d; Head.operator_double H) h = Returns (d', h') /\
    d' = decodeHeadOnly (encodeHeadOnly d) /\
    (rel_err d' d <= B2Q MaxSingleSegmentPrecision)%Q /\
    (rel_err d' d <= 1 # 1000000)%Q.
Proof.
  intros Hc Hn.
  exists (heap_upd h (Head.head H) (encodeHeadOnly d)), (decodeHeadOnly (encodeHeadOnly d)).
  split.
  { rewrite (bind_returns _ _ _ _ _ (Head_assign_spec _ _ d _ Hc)).
    apply Head_operator_double_spec. eapply cell_upd_eq. exact Hc. }
  split; [reflexivity|].
  assert (Hle : (rel_err (decodeHeadOnly (encodeHeadOnly d)) d
                 <= B2Q MaxSingleSegmentPrecision)%Q).
  { eapply Qle_trans; [apply (rel_err_head_roundtrip d Hn)|].
    apply MaxSingleSegmentPrecision_value. }
  split; [exact Hle|].
  eapply Qle_trans; [exact Hle|]. apply MaxSingleSegmentPrecision_value.
Qed.

(** C2, counterexample. The smallest subnormal double, pattern 1, is
    finite and nonzero; its head is zero, the round trip returns +0.0 and
    the relative error is 1. *)
Lemma head_only_roundtrip_loses_subnormal :
  is_finite 1 = true /\
  ~ (B2Q 1 == 0)%Q /\
  (exists h', (do _ <- Head.assign (Head.mk (Loc 0 0)) 1;
               Head.operator_double (Head.mk (Loc 0 0))) example_heap
              = Returns (0, h')) /\
  (rel_err 0 1 == 1)%Q /\
  ~ (rel_err 0 1 <= B2Q MaxSingleSegmentPrecision)%Q /\
  ~ (rel_err 0 1 <= 1 # 1000000)%Q.
Proof.
  split; [reflexivity|].
  split; [intros Hz; vm_compute in Hz; discriminate|].
  split; [eexists; vm_compute; reflexivity|].
  split; [vm_compute; reflexivity|].
  split; intros Hle; apply Qle_bool_iff in Hle; vm_compute in Hle; discriminate.
Qed.

(** ** The theorems on the concrete state *)

Lemma full_write_read_roundtrip_witness :
  exists h',
    PairsArray.set example_array 1 0x400921FB54442D18 example_heap = Returns (tt, h') /\
    cell h' (ptr_index (TwoSegArray.heads example_array) 1)
      = Some (encodeHeadOnly 0x400921FB54442D18) /\
    cell h' (ptr_index (TwoSegArray.tails example_array) 1)
      = Some (encodeTail 0x400921FB54442D18) /\
    Pair.operator_double (PairsArray.at_ example_array 1) h'
      = Returns (0x400921FB54442D18, h') /\
    PairsArray.read example_array 1 h' = Returns (0x400921FB54442D18, h').
Proof.
  apply (full_write_read_roundtrip example_heap example_array 2 1 0x400921FB54442D18).
  - exact example_allocated.
  - lia.
  - unfold is_u64. lia.
Defined.

Lemma head_only_roundtrip_error_normal_witness :
  is_normal 0x400921FB54442D18 = true /\
  exists h' d',
    (do _ <- Head.assign (Head.mk (Loc 0 1)) 0x400921FB54442D18;
     Head.operator_double (Head.mk (Loc 0 1))) example_heap = Returns (d', h') /\
    d' = decodeHeadOnly (encodeHeadOnly 0x400921FB54442D18) /\
    (rel_err d' 0x400921FB54442D18 <= B2Q MaxSingleSegmentPrecision)%Q /\
    (rel_err d' 0x400921FB54442D18 <= 1 # 1000000)%Q.
Proof.
  split; [reflexivity|].
  apply (head_only_roundtrip_error_normal example_heap (Head.mk (Loc 0 1))
           0x400921FB54442D18 0x400921FB); reflexivity.
Defined.

Lemma reduced_write_seen_by_full_view_witness :
  exists h' t,
    cell example_heap (ptr_index (TwoSegArray.tails example_array) 1) = Some t /\
    HeadsArray.set example_array 1 0x3FF0000000000001 example_heap = Returns (tt, h') /\
    PairsArray.read (HeadsArray.createFullPrecision example_array) 1 h'
      = Returns (decodeFull (encodeHeadOnly 0x3FF0000000000001) t, h') /\
    decodeHeadOnly (encodeHeadOnly (decodeFull (encodeHeadOnly 0x3FF0000000000001) t)) =
    decodeHeadOnly (encodeHeadOnly 0x3FF0000000000001).
Proof.
  apply (reduced_write_seen_by_full_view example_heap example_array 2 1 0x3FF0000000000001).
  - exact example_allocated.
  - lia.
Defined.

Lemma reduced_writes_touch_head_cell_only_witness :
  exists h',
    HeadsArray.set example_array 0 0x3FF0000000000001 example_heap = Returns (tt, h') /\
    Head.assign (HeadsArray.at_ example_array 0) 0x3FF0000000000001 example_heap
      = Returns (HeadsArray.at_ example_array 0, h') /\
    cell h' (ptr_index (TwoSegArray.heads example_array) 0)
      = Some (encodeHeadOnly 0x3FF0000000000001) /\
    cell h' (ptr_index (TwoSegArray.tails example_array) 0) =
      cell example_heap (ptr_index (TwoSegArray.tails example_array) 0) /\
    (forall j, j <> 0 ->
       cell h' (ptr_index (TwoSegArray.heads example_array) j) =
         cell example_heap (ptr_index (TwoSegArray.heads example_array) j) /\
       cell h' (ptr_index (TwoSegArray.tails example_array) j) =
         cell example_heap (ptr_index (TwoSegArray.tails example_array) j)) /\
    (forall q, q <> ptr_index (TwoSegArray.heads example_array) 0 ->
       cell h' q = cell example_heap q) /\
    allocated h' example_array 2.
Proof.
  apply (reduced_writes_touch_head_cell_only example_heap example_array 2 0
           0x3FF0000000000001).
  - exact example_allocated.
  - lia.
Defined.

Lemma compound_assignment_stores_truncated_witness :
  let H := Head.mk (Loc 0 0) in
  let r := 0x3FF0000000000000 in
  let x := decodeHeadOnly 0x40040000 in
  compound_result example_heap H (@dadd ieee754 x r) (@Head.add_assign ieee754 H r example_heap) /\
  compound_result example_heap H (@dsub ieee754 x r) (@Head.sub_assign ieee754 H r example_heap) /\
  compound_result example_heap H (@dmul ieee754 x r) (@Head.mul_assign ieee754 H r example_heap) /\
  compound_result example_heap H (@ddiv ieee754 x r) (@Head.div_assign ieee754 H r example_heap).
Proof.
  apply (@compound_assignment_stores_truncated ieee754 example_heap (Head.mk (Loc 0 0))
           0x3FF0000000000000 0x40040000).
  reflexivity.
Defined.

Lemma second_delSegments_is_silent_noop_witness :
  exists a1 h1,
    ManSegArray.delSegments example_composite example_heap = Returns (a1, h1) /\
    HeadsArray.isAlloc (ManSegArray.heads a1) = false /\
    ManSegArray.delSegments a1 h1 = Returns (a1, h1).
Proof.
  apply (second_delSegments_is_silent_noop example_heap example_composite 2).
  exact example_is_composite.
Defined.

Lemma element_access_is_unchecked_witness :
  HeadsArray.read example_array 1 example_heap = Returns (decodeHeadOnly 0x400921FB, example_heap) /\
  HeadsArray.read example_array 2 example_heap = Undefined.
Proof.
  split.
  - destruct (element_access_is_unchecked example_heap example_array 2 1 0
                example_allocated) as [Hin _].
    destruct Hin as (c & t & h1 & h2 & Hc & _ & Hrd & _); [lia|].
    injection Hc as <-. exact Hrd.
  - destruct (element_access_is_unchecked example_heap example_array 2 2 0
                example_allocated) as [_ Hout].
    destruct Hout as (_ & Hrd & _); [lia|]. exact Hrd.
Defined.

Lemma pair_assign_from_head_keeps_tail_witness :
  let P := PairsArray.at_ example_array 1 in
  let o := HeadsArray.at_ example_array 0 in
  exists h',
    Pair.assign_Head P o example_heap = Returns (P, h') /\
    cell h' (Pair.head P) = Some 0x40040000 /\
    cell h' (Pair.tail P) = Some 0x54442D18 /\
    Pair.operator_double P h' = Returns (decodeFull 0x40040000 0x54442D18, h') /\
    (is_u32 0x54442D18 -> 0x54442D18 <> 0 ->
     decodeFull 0x40040000 0x54442D18 <> decodeHeadOnly 0x40040000).
Proof.
  apply (pair_assign_from_head_keeps_tail example_heap (PairsArray.at_ example_array 1)
           (HeadsArray.at_ example_array 0) 0x40040000 0x54442D18).
  - reflexivity.
  - exists 0x400921FB. reflexivity.
  - reflexivity.
  - discriminate.
Defined.

(** * Further properties of the header *)

(** ** Allocation and release of the segments *)

Lemma HeadsArray_alloc_blocks junk n h :
  exists bh bt,
    h !! bh = None /\ h !! bt = None /\ bh <> bt /\
    HeadsArray.alloc junk n h =
    Returns (TwoSegArray.mk (Loc bh 0) (Loc bt 0),
             <[bt := replicate (Z.to_nat n) zero_f]>
               (<[bh := (fun k => wrap32 (junk k)) <$> seq 0 (Z.to_nat n)]> h)).
Proof.
  unfold HeadsArray.alloc, new_float_uninit, new_float_zero.
  destruct (new_array_spec ((fun k => wrap32 (junk k)) <$> seq 0 (Z.to_nat n)) h)
    as (bh & Hbh & Hnh).
  rewrite (bind_returns _ _ _ _ _ Hnh).
  match goal with |- context [ bind (new_array ?i) _ ?h1 ] =>
    destruct (new_array_spec i h1) as (bt & Hbt & Hnt) end.
  rewrite (bind_returns _ _ _ _ _ Hnt).
  assert (Hne : bh <> bt).
  { intros ->. rewrite lookup_insert_eq in Hbt. discriminate. }
  exists bh, bt. rewrite lookup_insert_ne in Hbt by exact Hne. auto.
Qed.

Lemma HeadsArray_del_blocks h bh bt hs ts :
  h !! bh = Some hs -> h !! bt = Some ts -> bh <> bt ->
  HeadsArray.del (TwoSegArray.mk (Loc bh 0) (Loc bt 0)) h =
  Returns (TwoSegArray.mk Null Null, delete bt (delete bh h)).
Proof.
  intros Hbh Hbt Hne. unfold HeadsArray.del. simpl.
  unfold bind at 1. unfold delete_array at 1. simpl. rewrite Hbh.
  unfold bind at 1. unfold delete_array at 1. simpl.
  rewrite lookup_delete_ne by exact Hne. rewrite Hbt. reflexivity.
Qed.

(** A cell that exists keeps its content when fresh blocks are added. *)
Lemma cell_insert_fresh h b cs q :
  h !! b = None -> is_Some (cell h q) -> cell (<[b := cs]> h) q = cell h q.
Proof.
  intros Hb [v Hq].
  destruct (cell_Some_inv _ _ _ Hq) as (b' & off & cs' & -> & Hb' & _).
  simpl. rewrite lookup_insert_ne by (intros ->; congruence). reflexivity.
Qed.

Lemma cell_fresh_block h b off : h !! b = None -> cell h (Loc b off) = None.
Proof. intros Hb. simpl. now rewrite Hb. Qed.





(** ** Full-precision writes and the two views *)

Lemma heap_upd_same h p c : cell h p = Some c -> heap_upd h p c = h.
Proof.
  intros Hc. destruct (cell_Some_inv _ _ _ Hc) as (b & off & cs & -> & Hb & Hoff & Hcs).
  unfold heap_upd. rewrite Hb. destruct (Z.leb_spec 0 off); [|lia].
  rewrite list_insert_id by exact Hcs. now apply insert_id.
Qed.

Lemma Pair_assign_spec h P d oh ot :
  cell h (Pair.head P) = Some oh ->
  cell h (Pair.tail P) = Some ot ->
  Pair.head P <> Pair.tail P ->
  Pair.assign P d h =
  Returns (P, heap_upd (heap_upd h (Pair.tail P) (encodeTail d))
                       (Pair.head P) (encodeHeadOnly d)).
Proof.
  intros Hh Ht Hne. unfold Pair.assign.
  rewrite ps_lane0_set_pd, ps_lane1_set_pd.
  rewrite (bind_returns _ _ _ _ _ (store_cell _ _ _ _ Ht)).
  assert (Hh' : cell (heap_upd h (Pair.tail P) (encodeTail d)) (Pair.head P) = Some oh)
    by (rewrite cell_upd_ne by exact Hne; exact Hh).
  now rewrite (bind_returns _ _ _ _ _ (store_cell _ _ _ _ Hh')).
Qed.

(** The heap after both halves of [d] are stored. *)
Lemma cells_after_full_write h ph pt d oh ot :
  cell h ph = Some oh -> cell h pt = Some ot -> ph <> pt ->
  let h' := heap_upd (heap_upd h pt (encodeTail d)) ph (encodeHeadOnly d) in
  cell h' ph = Some (encodeHeadOnly d) /\
  cell h' pt = Some (encodeTail d) /\
  (forall q, q <> ph -> q <> pt -> cell h' q = cell h q).
Proof.
  intros Hh Ht Hne h'. unfold h'. split; [|split].
  - eapply cell_upd_eq. rewrite cell_upd_ne by exact Hne. exact Hh.
  - rewrite cell_upd_ne by congruence. eapply cell_upd_eq. exact Ht.
  - intros q Hq1 Hq2. now rewrite !cell_upd_ne.
Qed.

(** X5. On an allocated array, [setPair] of either variant and [set] of
    the full variant are the same write: they store both halves of [d] at
    element [i], after which the full view reads [d], the reduced view
    reads [d] with its low 32 bits cleared, and no cell other than
    [heads[i]] and [tails[i]] has changed. *)
Theorem full_writes_agree_and_frame h a n i d :
  allocated h a n -> 0 <= i < n -> is_u64 d ->
  exists h',
    HeadsArray.setPair a i d h = Returns (tt, h') /\
    PairsArray.setPair a i d h = Returns (tt, h') /\
    PairsArray.set a i d h = Returns (tt, h') /\
    PairsArray.read a i h' = Returns (d, h') /\
    HeadsArray.read a i h' = Returns (d - d mod 2 ^ 32, h') /\
    (forall j, j <> i ->
       cell h' (ptr_index (TwoSegArray.heads a) j) =
         cell h (ptr_index (TwoSegArray.heads a) j) /\
       cell h' (ptr_index (TwoSegArray.tails a) j) =
         cell h (ptr_index (TwoSegArray.tails a) j)) /\
    (forall q, q <> ptr_index (TwoSegArray.heads a) i ->
               q <> ptr_index (TwoSegArray.tails a) i -> cell h' q = cell h q) /\
    allocated h' a n.
Proof.
  intros Ha Hi Hd.
  pose proof Ha as (Hhs & Hts & _).
  destruct (array_at_cell _ _ _ _ Hhs Hi) as [oh Hoh].
  destruct (array_at_cell _ _ _ _ Hts Hi) as [ot Hot].
  pose proof (allocated_cells_ne _ _ _ i i Ha) as Hne.
  destruct (cells_after_full_write h _ _ d oh ot Hoh Hot Hne) as (Hh' & Ht' & Hfr).
  set (h' := heap_upd (heap_upd h (ptr_index (TwoSegArray.tails a) i) (encodeTail d))
                      (ptr_index (TwoSegArray.heads a) i) (encodeHeadOnly d)) in *.
  exists h'.
  assert (Hset : PairsArray.set a i d h = Returns (tt, h'))
    by (eapply PairsArray_set_spec; eassumption).
  split; [exact Hset|]. split; [exact Hset|]. split; [exact Hset|].
  split.
  { pose proof (Pair_operator_double_spec h' (Pair.mk _ _) _ _ Hh' Ht') as Hrd.
    now rewrite (decodeFull_encodeFull d Hd) in Hrd. }
  split.
  { rewrite <- (decodeHeadOnly_encodeHeadOnly d Hd).
    now apply Head_operator_double_spec. }
  split.
  { intros j Hj. split; apply Hfr.
    - intros Heq. apply Hj. exact (ptr_index_inj h _ n j i Hhs Heq).
    - intros Heq. now apply (allocated_cells_ne _ _ _ j i Ha).
    - intros Heq. now apply (allocated_cells_ne _ _ _ i j Ha).
    - intros Heq. apply Hj. exact (ptr_index_inj h _ n j i Hts Heq). }
  split; [exact Hfr|].
  unfold h'. now apply allocated_upd, allocated_upd.
Qed.

(** X6. Assigning a double [d] to a [Pair] accessor with two distinct
    live cells stores its two halves, changes no other cell, and the
    accessor then converts back to [d]. *)
Theorem pair_assign_roundtrip h P d oh ot :
  cell h (Pair.head P) = Some oh ->
  cell h (Pair.tail P) = Some ot ->
  Pair.head P <> Pair.tail P ->
  is_u64 d ->
  exists h',
    Pair.assign P d h = Returns (P, h') /\
    cell h' (Pair.head P) = Some (encodeHeadOnly d) /\
    cell h' (Pair.tail P) = Some (encodeTail d) /\
    (forall q, q <> Pair.head P -> q <> Pair.tail P -> cell h' q = cell h q) /\
    Pair.operator_double P h' = Returns (d, h').
Proof.
  intros Hh Ht Hne Hd.
  destruct (cells_after_full_write h _ _ d oh ot Hh Ht Hne) as (Hh' & Ht' & Hfr).
  eexists. split; [now apply Pair_assign_spec with (oh := oh) (ot := ot)|].
  split; [exact Hh'|]. split; [exact Ht'|]. split; [exact Hfr|].
  pose proof (Pair_operator_double_spec _ _ _ _ Hh' Ht') as Hrd.
  now rewrite (decodeFull_encodeFull d Hd) in Hrd.
Qed.

Section PairCompound.
Context {arith : DoubleArith}.

Lemma pair_compound_step h P hd tl (f : Z -> Z -> Z) r :
  cell h (Pair.head P) = Some hd ->
  cell h (Pair.tail P) = Some tl ->
  Pair.head P <> Pair.tail P ->
  pair_compound_result h P (f (decodeFull hd tl) r)
    ((do t0 <- Pair.operator_double P;
      let r0 := r in
      let t1 := f t0 r0 in
      do _ <- Pair.assign P t1;
      ret t1) h).
Proof.
  intros Hh Ht Hne.
  rewrite (bind_returns _ _ _ _ _ (Pair_operator_double_spec _ _ _ _ Hh Ht)).
  cbv zeta.
  rewrite (bind_returns _ _ _ _ _ (Pair_assign_spec _ _ _ _ _ Hh Ht Hne)).
  destruct (cells_after_full_write h _ _ (f (decodeFull hd tl) r) hd tl Hh Ht Hne)
    as (Hh' & Ht' & Hfr).
  eexists. split; [reflexivity|]. auto.
Qed.

(** X7. For a [Pair] accessor whose cells hold [hd] and [tl], each of
    [+=], [-=], [*=], [/=] returns [t], the double operation on
    [decodeFull hd tl] and [r], and stores both halves of [t]: unlike the
    [Head] operators nothing of the result is dropped.  No other cell
    changes. *)
Theorem pair_compound_assignment_stores_all h P r hd tl :
  cell h (Pair.head P) = Some hd ->
  cell h (Pair.tail P) = Some tl ->
  Pair.head P <> Pair.tail P ->
  pair_compound_result h P (dadd (decodeFull hd tl) r) (Pair.add_assign P r h) /\
  pair_compound_result h P (dsub (decodeFull hd tl) r) (Pair.sub_assign P r h) /\
  pair_compound_result h P (dmul (decodeFull hd tl) r) (Pair.mul_assign P r h) /\
  pair_compound_result h P (ddiv (decodeFull hd tl) r) (Pair.div_assign P r h).
Proof.
  intros Hh Ht Hne. repeat split.
  - exact (pair_compound_step h P hd tl dadd r Hh Ht Hne).
  - exact (pair_compound_step h P hd tl dsub r Hh Ht Hne).
  - exact (pair_compound_step h P hd tl dmul r Hh Ht Hne).
  - exact (pair_compound_step h P hd tl ddiv r Hh Ht Hne).
Qed.

End PairCompound.

(** ** Exact and idempotent head-only writes *)

(** X9. A double whose low 32 bits are zero passes through the reduced
    view unchanged: [set(i, d)] followed by [read(i)] returns [d]. *)
Theorem head_write_exact_when_low_half_zero h a n i d :
  allocated h a n -> 0 <= i < n -> is_u64 d -> d mod 2 ^ 32 = 0 ->
  exists h',
    (do _ <- HeadsArray.set a i d; HeadsArray.read a i) h = Returns (d, h').
Proof.
  intros Ha Hi Hd Hlow.
  pose proof Ha as (Hhs & _).
  destruct (array_at_cell _ _ _ _ Hhs Hi) as [oh Hoh].
  eexists.
  rewrite (bind_returns _ _ _ _ _ (HeadsArray_set_spec _ _ _ d _ Hoh)).
  assert (Hex : decodeHeadOnly (encodeHeadOnly d) = d)
    by (rewrite decodeHeadOnly_encodeHeadOnly by exact Hd; lia).
  assert (Hcell : cell (heap_upd h (ptr_index (TwoSegArray.heads a) i) (encodeHeadOnly d))
                       (ptr_index (TwoSegArray.heads a) i) = Some (encodeHeadOnly d))
    by (eapply cell_upd_eq; exact Hoh).
  pose proof (Head_operator_double_spec _ (Head.mk _) _ Hcell) as Hrd.
  rewrite Hex in Hrd. exact Hrd.
Qed.

(** X10. Writing back what was read changes nothing: on an allocated
    array whose cells at [i] hold 32-bit patterns, [set(i, read(i))]
    leaves the heap as it was, through the reduced view and through the
    full view. *)
Theorem write_back_of_read_is_noop h a n i c t :
  allocated h a n -> 0 <= i < n ->
  cell h (ptr_index (TwoSegArray.heads a) i) = Some c -> is_u32 c ->
  cell h (ptr_index (TwoSegArray.tails a) i) = Some t -> is_u32 t ->
  (do v <- HeadsArray.read a i; HeadsArray.set a i v) h = Returns (tt, h) /\
  (do v <- PairsArray.read a i; PairsArray.set a i v) h = Returns (tt, h).
Proof.
  intros Ha Hi Hc Hcr Ht Htr.
  pose proof (allocated_cells_ne _ _ _ i i Ha) as Hne.
  split.
  - unfold HeadsArray.read.
    rewrite (bind_returns _ _ _ _ _ (Head_operator_double_spec _ (Head.mk _) _ Hc)).
    rewrite (HeadsArray_set_spec _ _ _ _ _ Hc).
    unfold decodeHeadOnly. rewrite encodeHeadOnly_decodeFull, (wrap32_id c Hcr).
    now rewrite (heap_upd_same _ _ _ Hc).
  - unfold PairsArray.read.
    rewrite (bind_returns _ _ _ _ _ (Pair_operator_double_spec _ (Pair.mk _ _) _ _ Hc Ht)).
    rewrite (PairsArray_set_spec _ _ _ _ _ _ Hc Ht Hne).
    rewrite encodeHeadOnly_decodeFull, encodeTail_decodeFull.
    rewrite (wrap32_id c Hcr), (wrap32_id t Htr).
    rewrite (heap_upd_same _ _ _ Ht). now rewrite (heap_upd_same _ _ _ Hc).
Qed.

(** ** Assignments between the two accessor kinds *)

(** X11. Assigning a [Pair] accessor to a [Head] accessor copies the
    pair's head cell; it is the same as assigning the pair's double value
    through the generic operator, and the [Head] then reads the pair's
    value with the low 32 bits cleared. *)
Theorem head_assign_from_pair_truncates h H P hd tl oh :
  cell h (Pair.head P) = Some hd -> is_u32 hd ->
  cell h (Pair.tail P) = Some tl ->
  cell h (Head.head H) = Some oh ->
  exists h',
    Head_assign_Pair H P h = Returns (H, h') /\
    (do d <- Pair.operator_double P; Head.assign H d) h = Returns (H, h') /\
    cell h' (Head.head H) = Some hd /\
    (forall q, q <> Head.head H -> cell h' q = cell h q) /\
    Head.operator_double H h' = Returns (decodeHeadOnly hd, h').
Proof.
  intros Hh Hr Ht Ho.
  exists (heap_upd h (Head.head H) hd).
  assert (Hc' : cell (heap_upd h (Head.head H) hd) (Head.head H) = Some hd)
    by (eapply cell_upd_eq; exact Ho).
  split.
  { unfold Head_assign_Pair.
    rewrite (bind_returns _ _ _ _ _ (load_cell _ _ _ Hh)).
    now rewrite (bind_returns _ _ _ _ _ (store_cell _ _ _ _ Ho)). }
  split.
  { rewrite (bind_returns _ _ _ _ _ (Pair_operator_double_spec _ _ _ _ Hh Ht)).
    rewrite (Head_assign_spec _ _ _ _ Ho).
    now rewrite encodeHeadOnly_decodeFull, (wrap32_id hd Hr). }
  split; [exact Hc'|].
  split; [intros q Hq; now apply cell_upd_ne|].
  now apply Head_operator_double_spec.
Qed.

(** X12. Assigning the double value of a [Head] accessor to a [Pair]
    accessor goes through the generic operator and zeroes the pair's
    tail: afterwards the pair reads exactly the head-only value. *)
Theorem pair_assign_head_value_zeroes_tail h P o hd oh ot :
  cell h (Head.head o) = Some hd -> is_u32 hd ->
  cell h (Pair.head P) = Some oh ->
  cell h (Pair.tail P) = Some ot ->
  Pair.head P <> Pair.tail P ->
  exists h',
    (do d <- Head.operator_double o; Pair.assign P d) h = Returns (P, h') /\
    cell h' (Pair.head P) = Some hd /\
    cell h' (Pair.tail P) = Some 0 /\
    Pair.operator_double P h' = Returns (decodeHeadOnly hd, h').
Proof.
  intros Ho Hr Hh Ht Hne.
  rewrite (bind_returns _ _ _ _ _ (Head_operator_double_spec _ _ _ Ho)).
  destruct (cells_after_full_write h _ _ (decodeHeadOnly hd) oh ot Hh Ht Hne)
    as (Hh' & Ht' & _).
  assert (He1 : encodeHeadOnly (decodeHeadOnly hd) = hd).
  { unfold decodeHeadOnly. now rewrite encodeHeadOnly_decodeFull, (wrap32_id hd Hr). }
  assert (He2 : encodeTail (decodeHeadOnly hd) = 0).
  { unfold decodeHeadOnly. rewrite encodeTail_decodeFull. apply wrap32_id.
    unfold is_u32. lia. }
  set (h' := heap_upd (heap_upd h (Pair.tail P) (encodeTail (decodeHeadOnly hd)))
                      (Pair.head P) (encodeHeadOnly (decodeHeadOnly hd))) in *.
  rewrite He1 in Hh'. rewrite He2 in Ht'.
  exists h'. split; [now apply Pair_assign_spec with (oh := oh) (ot := ot)|].
  split; [exact Hh'|]. split; [exact Ht'|].
  unfold decodeHeadOnly at 1. now apply Pair_operator_double_spec.
Qed.

(** X13. The copy constructors [Head(const Head&)] and
    [Pair(const Pair&)] never produce a copy: like [Pair(const Head&)]
    they write through members that no initialiser has bound, which is
    undefined behaviour for every argument. *)
Theorem copy_constructors_write_through_unbound_members :
  (forall o h, Head.copy o h = Undefined) /\
  (forall o h, Pair.copy o h = Undefined).
Proof.
  split; intros o h.
  - unfold Head.copy, bind, load. destruct (cell h (Head.head o)); reflexivity.
  - unfold Pair.copy, bind, load. destruct (cell h (Pair.head o)); reflexivity.
Qed.

(** ** The mirror and the life cycle of the composite array *)

Lemma composite_insert_fresh h a n b cs :
  composite h a n -> h !! b = None -> composite (<[b := cs]> h) a n.
Proof.
  intros (((bh & hs & Hh & Hbh & Hlh) & (bt & ts & Ht & Hbt & Hlt) & Hne) & Hp & Hl) Hb.
  repeat split; auto.
  - exists bh, hs. rewrite lookup_insert_ne by (intros ->; congruence). auto.
  - exists bt, ts. rewrite lookup_insert_ne by (intros ->; congruence). auto.
Qed.

(** [copytoIEEEdouble] on a composite array, with the blocks named. *)
Lemma copytoIEEEdouble_blocks junk h a n bh bt hs :
  composite h a n -> n <= INT_MAX ->
  ManSegArray.heads a = TwoSegArray.mk (Loc bh 0) (Loc bt 0) ->
  h !! bh = Some hs ->
  exists bf,
    h !! bf = None /\
    ManSegArray.copytoIEEEdouble junk a h =
    Returns (ManSegArray.mk (ManSegArray.heads a) (ManSegArray.pairs a) (Loc bf 0) n,
             <[bf := decodeHeadOnly <$> hs]> h).
Proof.
  intros Hc Hn Hheads Hbh.
  destruct (copytoIEEEdouble_fills junk h a n Hc Hn)
    as (bh' & bf & hs' & Hh' & Hbh' & Hbf & Hrun).
  rewrite Hheads in Hh'. simpl in Hh'. injection Hh' as <-.
  rewrite Hbh in Hbh'. injection Hbh' as <-.
  exists bf. auto.
Qed.

Lemma composite_heads_blocks h a n :
  composite h a n ->
  exists bh bt hs ts,
    ManSegArray.heads a = TwoSegArray.mk (Loc bh 0) (Loc bt 0) /\
    ManSegArray.pairs a = TwoSegArray.mk (Loc bh 0) (Loc bt 0) /\
    ManSegArray.length a = n /\ bh <> bt /\
    h !! bh = Some hs /\ Z.of_nat (length hs) = n /\
    h !! bt = Some ts /\ Z.of_nat (length ts) = n.
Proof.
  intros (((bh & hs & Hh & Hbh & Hlh) & (bt & ts & Ht & Hbt & Hlt) & Hne) & Hp & Hl).
  exists bh, bt, hs, ts. rewrite Hp. unfold HeadsArray.createFullPrecision.
  destruct (ManSegArray.heads a) as [ph pt]. simpl in *. subst.
  repeat split; auto. congruence.
Qed.

(** X14. For a composite array whose length fits the [int] counter,
    [copytoIEEEdouble] returns with [full] bound to a block that was not
    live before and has exactly [length] cells; cell [i] of it is the
    head-only decoding of [heads[i]], whatever [tails[i]] holds; the views
    and [length] are unchanged and so is every cell that existed before. *)
Theorem mirror_holds_head_decoding junk h a n :
  composite h a n -> n <= INT_MAX ->
  exists a' h' bf,
    ManSegArray.copytoIEEEdouble junk a h = Returns (a', h') /\
    a' = ManSegArray.mk (ManSegArray.heads a) (ManSegArray.pairs a) (Loc bf 0) n /\
    h !! bf = None /\
    (forall i, 0 <= i < n ->
       exists c,
         cell h (ptr_index (TwoSegArray.heads (ManSegArray.heads a)) i) = Some c /\
         cell h' (ptr_index (ManSegArray.full a') i) = Some (decodeHeadOnly c)) /\
    (forall i, ~ 0 <= i < n -> cell h' (ptr_index (ManSegArray.full a') i) = None) /\
    (forall q, is_Some (cell h q) -> cell h' q = cell h q) /\
    composite h' a' n.
Proof.
  intros Hc Hn.
  destruct (composite_heads_blocks _ _ _ Hc)
    as (bh & bt & hs & ts & Hheads & Hpairs & Hlen & Hne & Hbh & Hlh & Hbt & Hlt).
  destruct (copytoIEEEdouble_blocks junk h a n bh bt hs Hc Hn Hheads Hbh)
    as (bf & Hbf & Hrun).
  eexists _, _, bf. split; [exact Hrun|]. split; [reflexivity|]. split; [exact Hbf|].
  simpl. split.
  { intros i Hi. rewrite Hheads. simpl. rewrite Hbh, lookup_insert_eq.
    destruct (Z.leb_spec 0 (0 + i)); [|lia].
    destruct (lookup_lt_is_Some_2 hs (Z.to_nat (0 + i))) as [c Hcs]; [lia|].
    exists c. split; [exact Hcs|]. now rewrite list_lookup_fmap, Hcs. }
  split.
  { intros i Hi. rewrite lookup_insert_eq.
    destruct (Z.leb_spec 0 (0 + i)); [|reflexivity].
    apply lookup_ge_None. rewrite length_fmap. lia. }
  split; [intros q Hq; now apply cell_insert_fresh|].
  destruct Hc as (Ha & Hp & Hl).
  pose proof (composite_insert_fresh h a n bf (decodeHeadOnly <$> hs)
                (conj Ha (conj Hp Hl)) Hbf) as (Ha' & _ & _).
  repeat split; try apply Ha'. exact Hp.
Qed.

(** X15. The mirror shares no cell with the segments: after
    [copytoIEEEdouble], a write through either view leaves every mirror
    cell as it is, and a write to [full[j]] leaves [heads] and [tails] as
    they are. *)
Theorem mirror_is_independent junk h a n i j v w :
  composite h a n -> n <= INT_MAX -> 0 <= i < n -> 0 <= j < n ->
  exists a' h',
    ManSegArray.copytoIEEEdouble junk a h = Returns (a', h') /\
    (exists h1, HeadsArray.set (ManSegArray.heads a') i v h' = Returns (tt, h1) /\
       forall k, cell h1 (ptr_index (ManSegArray.full a') k) =
                 cell h' (ptr_index (ManSegArray.full a') k)) /\
    (exists h1, PairsArray.set (ManSegArray.pairs a') i v h' = Returns (tt, h1) /\
       forall k, cell h1 (ptr_index (ManSegArray.full a') k) =
                 cell h' (ptr_index (ManSegArray.full a') k)) /\
    (exists h2, store (ptr_index (ManSegArray.full a') j) w h' = Returns (tt, h2) /\
       forall k,
         cell h2 (ptr_index (TwoSegArray.heads (ManSegArray.heads a')) k) =
           cell h' (ptr_index (TwoSegArray.heads (ManSegArray.heads a')) k) /\
         cell h2 (ptr_index (TwoSegArray.tails (ManSegArray.heads a')) k) =
           cell h' (ptr_index (TwoSegArray.tails (ManSegArray.heads a')) k)).
Proof.
  intros Hc Hn Hi Hj.
  destruct (composite_heads_blocks _ _ _ Hc)
    as (bh & bt & hs & ts & Hheads & Hpairs & Hlen & Hne & Hbh & Hlh & Hbt & Hlt).
  destruct (copytoIEEEdouble_blocks junk h a n bh bt hs Hc Hn Hheads Hbh)
    as (bf & Hbf & Hrun).
  eexists _, _. split; [exact Hrun|].
  cbn [ManSegArray.heads ManSegArray.pairs ManSegArray.full].
  rewrite Hheads, Hpairs.
  cbn [TwoSegArray.heads TwoSegArray.tails ptr_index].
  set (h' := <[bf := decodeHeadOnly <$> hs]> h).
  assert (Hfh : bf <> bh) by (intros ->; congruence).
  assert (Hft : bf <> bt) by (intros ->; congruence).
  assert (Hch : is_Some (cell h' (Loc bh (0 + i)))).
  { simpl. unfold h'. rewrite lookup_insert_ne by exact Hfh. rewrite Hbh.
    destruct (Z.leb_spec 0 (0 + i)); [|lia]. apply lookup_lt_is_Some. lia. }
  assert (Hct : is_Some (cell h' (Loc bt (0 + i)))).
  { simpl. unfold h'. rewrite lookup_insert_ne by exact Hft. rewrite Hbt.
    destruct (Z.leb_spec 0 (0 + i)); [|lia]. apply lookup_lt_is_Some. lia. }
  assert (Hcf : is_Some (cell h' (Loc bf (0 + j)))).
  { simpl. unfold h'. rewrite lookup_insert_eq.
    destruct (Z.leb_spec 0 (0 + j)); [|lia]. apply lookup_lt_is_Some.
    rewrite length_fmap. lia. }
  destruct Hch as [ch Hch]. destruct Hct as [ct Hct]. destruct Hcf as [cf Hcf].
  split; [|split].
  - eexists. split.
    + apply (HeadsArray_set_spec h' (TwoSegArray.mk (Loc bh 0) (Loc bt 0)) i v ch Hch).
    + intros k. apply cell_upd_ne. simpl. congruence.
  - eexists. split.
    + apply (PairsArray_set_spec h' (TwoSegArray.mk (Loc bh 0) (Loc bt 0)) i v ch ct Hch Hct).
      simpl. congruence.
    + intros k. rewrite !cell_upd_ne by (simpl; congruence). reflexivity.
  - eexists. split.
    + apply (store_cell h' (Loc bf (0 + j)) w cf Hcf).
    + intros k. split; apply cell_upd_ne; congruence.
Qed.

Lemma ManSegArray_del_live h hd ps bf m n :
  h !! bf = Some m ->
  ManSegArray.del (ManSegArray.mk hd ps (Loc bf 0) n) h =
  Returns (ManSegArray.mk hd ps Null (if negb (HeadsArray.isAlloc hd) then 0 else n),
           delete bf h).
Proof.
  intros Hbf. unfold ManSegArray.del. simpl.
  unfold bind, delete_array. simpl. now rewrite Hbf.
Qed.

(** X16. Building the mirror and releasing it again with [del()] gives
    back the heap as it was; the segments stay bound and [length] is
    kept. *)
Theorem mirror_build_then_del_restores_heap junk h a n :
  composite h a n -> n <= INT_MAX ->
  (do a' <- ManSegArray.copytoIEEEdouble junk a; ManSegArray.del a') h =
  Returns (ManSegArray.mk (ManSegArray.heads a) (ManSegArray.pairs a) Null n, h).
Proof.
  intros Hc Hn.
  destruct (composite_heads_blocks _ _ _ Hc)
    as (bh & bt & hs & ts & Hheads & Hpairs & Hlen & Hne & Hbh & Hlh & Hbt & Hlt).
  destruct (copytoIEEEdouble_blocks junk h a n bh bt hs Hc Hn Hheads Hbh)
    as (bf & Hbf & Hrun).
  rewrite (bind_returns _ _ _ _ _ Hrun).
  rewrite (ManSegArray_del_live _ _ _ bf (decodeHeadOnly <$> hs))
    by apply lookup_insert_eq.
  rewrite delete_insert_id by exact Hbf.
  rewrite Hheads. reflexivity.
Qed.

(** X17. Calling [copytoIEEEdouble] twice leaks the first mirror: the
    second call binds [full] to another block, and after [del()] has
    released that one the first block is still live, with no member of
    the object pointing to it. *)
Theorem second_mirror_leaks_the_first junk h a n :
  composite h a n -> n <= INT_MAX ->
  exists a1 a2 a3 h3 b1 b2 m,
    (do x1 <- ManSegArray.copytoIEEEdouble junk a;
     do x2 <- ManSegArray.copytoIEEEdouble junk x1;
     do x3 <- ManSegArray.del x2;
     ret (x1, x2, x3)) h = Returns ((a1, a2, a3), h3) /\
    ManSegArray.full a1 = Loc b1 0 /\
    ManSegArray.full a2 = Loc b2 0 /\
    b1 <> b2 /\
    ManSegArray.full a3 = Null /\
    ManSegArray.heads a3 = ManSegArray.heads a /\
    ManSegArray.pairs a3 = ManSegArray.pairs a /\
    h !! b1 = None /\
    h3 !! b1 = Some m /\ Z.of_nat (length m) = n.
Proof.
  intros Hc Hn.
  destruct (composite_heads_blocks _ _ _ Hc)
    as (bh & bt & hs & ts & Hheads & Hpairs & Hlen & Hne & Hbh & Hlh & Hbt & Hlt).
  destruct (copytoIEEEdouble_blocks junk h a n bh bt hs Hc Hn Hheads Hbh)
    as (b1 & Hb1 & Hrun1).
  set (m := decodeHeadOnly <$> hs) in *.
  set (a1 := ManSegArray.mk (ManSegArray.heads a) (ManSegArray.pairs a) (Loc b1 0) n) in *.
  assert (Hc1 : composite (<[b1 := m]> h) a1 n).
  { destruct Hc as (Ha & Hp & Hl).
    pose proof (composite_insert_fresh h a n b1 m (conj Ha (conj Hp Hl)) Hb1)
      as (Ha' & _ & _).
    repeat split; try apply Ha'. exact Hp. }
  assert (Hbh1 : <[b1 := m]> h !! bh = Some hs).
  { rewrite lookup_insert_ne by (intros ->; congruence). exact Hbh. }
  destruct (copytoIEEEdouble_blocks junk _ a1 n bh bt hs Hc1 Hn Hheads Hbh1)
    as (b2 & Hb2 & Hrun2).
  fold m in Hrun2.
  assert (Hb12 : b1 <> b2).
  { intros ->. rewrite lookup_insert_eq in Hb2. discriminate. }
  eexists a1, _, _, _, b1, b2, m.
  rewrite (bind_returns _ _ _ _ _ Hrun1).
  rewrite (bind_returns _ _ _ _ _ Hrun2).
  rewrite (bind_returns _ _ _ _ _
             (ManSegArray_del_live _ _ _ b2 m n (lookup_insert_eq _ _ _))).
  split; [reflexivity|]. simpl.
  repeat split; auto.
  - rewrite lookup_delete_ne by congruence.
    rewrite lookup_insert_ne by congruence. apply lookup_insert_eq.
  - unfold m. rewrite length_fmap. exact Hlh.
Qed.

Lemma create_blocks junk n h :
  0 <= n ->
  exists bh bt,
    h !! bh = None /\ h !! bt = None /\ bh <> bt /\
    ManSegArray.create junk n h =
    Returns (ManSegArray.mk (TwoSegArray.mk (Loc bh 0) (Loc bt 0))
                            (TwoSegArray.mk (Loc bh 0) (Loc bt 0)) Null n,
             <[bt := replicate (Z.to_nat n) zero_f]>
               (<[bh := (fun k => wrap32 (junk k)) <$> seq 0 (Z.to_nat n)]> h)) /\
    composite (<[bt := replicate (Z.to_nat n) zero_f]>
                 (<[bh := (fun k => wrap32 (junk k)) <$> seq 0 (Z.to_nat n)]> h))
              (ManSegArray.mk (TwoSegArray.mk (Loc bh 0) (Loc bt 0))
                              (TwoSegArray.mk (Loc bh 0) (Loc bt 0)) Null n) n.
Proof.
  intros Hn.
  destruct (HeadsArray_alloc_blocks junk n h) as (bh & bt & Hbh & Hbt & Hne & Hrun).
  exists bh, bt. split; [exact Hbh|]. split; [exact Hbt|]. split; [exact Hne|].
  split.
  { unfold ManSegArray.create. now rewrite (bind_returns _ _ _ _ _ Hrun). }
  repeat split; simpl.
  - eexists bh, _. split; [reflexivity|]. split.
    + rewrite lookup_insert_ne by congruence. apply lookup_insert_eq.
    + rewrite length_fmap, length_seq. lia.
  - eexists bt, _. split; [reflexivity|]. split.
    + apply lookup_insert_eq.
    + rewrite length_replicate. lia.
  - congruence.
Qed.

Lemma delSegments_blocks h ps f n bh bt hs ts :
  h !! bh = Some hs -> h !! bt = Some ts -> bh <> bt ->
  ManSegArray.delSegments
    (ManSegArray.mk (TwoSegArray.mk (Loc bh 0) (Loc bt 0)) ps f n) h =
  Returns (ManSegArray.mk (TwoSegArray.mk Null Null) ps f (if is_null f then 0 else n),
           delete bt (delete bh h)).
Proof.
  intros Hbh Hbt Hne. unfold ManSegArray.delSegments. simpl.
  now rewrite (bind_returns _ _ _ _ _ (HeadsArray_del_blocks _ _ _ _ _ Hbh Hbt Hne)).
Qed.

Lemma read_through_null h i :
  HeadsArray.read (TwoSegArray.mk Null Null) i h = Undefined /\
  PairsArray.read (TwoSegArray.mk Null Null) i h = Undefined.
Proof.
  unfold HeadsArray.read, PairsArray.read, Head.operator_double,
    Pair.operator_double, bind, load. simpl.
  destruct (i =? 0); split; reflexivity.
Qed.

(** Equality of heaps built from inserts and deletes, key by key. *)
Ltac heap_eq :=
  apply map_eq; intros ?k;
  rewrite ?lookup_delete, ?lookup_insert;
  repeat case_decide; subst; congruence.

(** X18. Created, mirrored and released, in either order of
    [delSegments()] and [del()]: the heap is back to what it was before
    the array was created, the pointers of the reduced-only view and
    [full] are null and [length] is 0.  [length] drops to 0 only with the
    second release. *)
Theorem release_in_either_order_restores_heap junk junk' n h :
  0 <= n <= INT_MAX ->
  exists alias,
    (do a <- ManSegArray.create junk n;
     do a1 <- ManSegArray.copytoIEEEdouble junk' a;
     do a2 <- ManSegArray.delSegments a1;
     do a3 <- ManSegArray.del a2;
     ret (ManSegArray.length a2, a3)) h
      = Returns ((n, ManSegArray.mk (TwoSegArray.mk Null Null) alias Null 0), h) /\
    (do a <- ManSegArray.create junk n;
     do a1 <- ManSegArray.copytoIEEEdouble junk' a;
     do a2 <- ManSegArray.del a1;
     do a3 <- ManSegArray.delSegments a2;
     ret (ManSegArray.length a2, a3)) h
      = Returns ((n, ManSegArray.mk (TwoSegArray.mk Null Null) alias Null 0), h).
Proof.
  intros [Hn0 Hn].
  destruct (create_blocks junk n h Hn0) as (bh & bt & Hbh & Hbt & Hne & Hcr & Hc).
  set (hs := (fun k => wrap32 (junk k)) <$> seq 0 (Z.to_nat n)) in *.
  set (ts := replicate (Z.to_nat n) zero_f) in *.
  set (h1 := <[bt := ts]> (<[bh := hs]> h)) in *.
  assert (Hl1h : h1 !! bh = Some hs).
  { unfold h1. rewrite lookup_insert_ne by congruence. apply lookup_insert_eq. }
  assert (Hl1t : h1 !! bt = Some ts) by apply lookup_insert_eq.
  destruct (copytoIEEEdouble_blocks junk' h1 _ n bh bt hs Hc Hn eq_refl Hl1h)
    as (bf & Hbf & Hrun).
  cbn [ManSegArray.heads ManSegArray.pairs] in Hrun.
  set (m := decodeHeadOnly <$> hs) in *.
  assert (Hfh : bf <> bh) by (intros ->; congruence).
  assert (Hft : bf <> bt) by (intros ->; congruence).
  assert (Hbf0 : h !! bf = None).
  { unfold h1 in Hbf. now rewrite !lookup_insert_ne in Hbf by congruence. }
  exists (TwoSegArray.mk (Loc bh 0) (Loc bt 0)). split.
  - rewrite (bind_returns _ _ _ _ _ Hcr), (bind_returns _ _ _ _ _ Hrun).
    rewrite (bind_returns _ _ _ _ _
               (delSegments_blocks (<[bf := m]> h1) _ (Loc bf 0) n bh bt hs ts
                  ltac:(now rewrite lookup_insert_ne)
                  ltac:(now rewrite lookup_insert_ne) Hne)).
    cbn [is_null].
    rewrite (bind_returns _ _ _ _ _
               (ManSegArray_del_live (delete bt (delete bh (<[bf := m]> h1)))
                  (TwoSegArray.mk Null Null) _ bf m n
                  ltac:(rewrite !lookup_delete_ne by congruence;
                        apply lookup_insert_eq))).
    unfold ret. cbn [ManSegArray.length HeadsArray.isAlloc TwoSegArray.heads
                     TwoSegArray.tails is_null negb andb].
    f_equal. f_equal. unfold h1. heap_eq.
  - rewrite (bind_returns _ _ _ _ _ Hcr), (bind_returns _ _ _ _ _ Hrun).
    rewrite (bind_returns _ _ _ _ _
               (ManSegArray_del_live (<[bf := m]> h1)
                  (TwoSegArray.mk (Loc bh 0) (Loc bt 0)) _ bf m n
                  (lookup_insert_eq _ _ _))).
    cbn [HeadsArray.isAlloc TwoSegArray.heads TwoSegArray.tails is_null negb andb].
    rewrite (bind_returns _ _ _ _ _
               (delSegments_blocks (delete bf (<[bf := m]> h1)) _ Null n bh bt hs ts
                  ltac:(now rewrite lookup_delete_ne, lookup_insert_ne)
                  ltac:(now rewrite lookup_delete_ne, lookup_insert_ne) Hne)).
    unfold ret. cbn [ManSegArray.length is_null].
    f_equal. f_equal. unfold h1. heap_eq.
Qed.

(** X19. The mirror outlives the segments: after [copytoIEEEdouble] and
    then [delSegments()], [length] is still the array's length, [full] is
    unchanged and every mirror cell holds what it held, while the reduced
    view is unallocated and reading through it is undefined. *)
Theorem mirror_outlives_segments junk h a n :
  composite h a n -> n <= INT_MAX ->
  exists a1 h1 a2 h2,
    ManSegArray.copytoIEEEdouble junk a h = Returns (a1, h1) /\
    ManSegArray.delSegments a1 h1 = Returns (a2, h2) /\
    ManSegArray.length a2 = n /\
    ManSegArray.full a2 = ManSegArray.full a1 /\
    HeadsArray.isAlloc (ManSegArray.heads a2) = false /\
    (forall k, cell h2 (ptr_index (ManSegArray.full a2) k) =
               cell h1 (ptr_index (ManSegArray.full a1) k)) /\
    (forall i, 0 <= i < n ->
       is_Some (cell h2 (ptr_index (ManSegArray.full a2) i))) /\
    (forall i, HeadsArray.read (ManSegArray.heads a2) i h2 = Undefined).
Proof.
  intros Hc Hn.
  destruct (composite_heads_blocks _ _ _ Hc)
    as (bh & bt & hs & ts & Hheads & Hpairs & Hlen & Hne & Hbh & Hlh & Hbt & Hlt).
  destruct (copytoIEEEdouble_blocks junk h a n bh bt hs Hc Hn Hheads Hbh)
    as (bf & Hbf & Hrun).
  assert (Hfh : bf <> bh) by (intros ->; congruence).
  assert (Hft : bf <> bt) by (intros ->; congruence).
  rewrite Hheads in Hrun.
  eexists _, _, _, _. split; [exact Hrun|]. split.
  { apply (delSegments_blocks _ _ _ _ bh bt hs ts).
    - now rewrite lookup_insert_ne.
    - now rewrite lookup_insert_ne.
    - exact Hne. }
  cbn [ManSegArray.length ManSegArray.full ManSegArray.heads is_null].
  split; [reflexivity|]. split; [reflexivity|]. split; [reflexivity|].
  assert (Hcell : forall k,
            cell (delete bt (delete bh (<[bf := decodeHeadOnly <$> hs]> h)))
                 (ptr_index (Loc bf 0) k) =
            cell (<[bf := decodeHeadOnly <$> hs]> h) (ptr_index (Loc bf 0) k)).
  { intros k. simpl. now rewrite !lookup_delete_ne by congruence. }
  split; [exact Hcell|]. split.
  - intros i Hi. rewrite Hcell. simpl. rewrite lookup_insert_eq.
    destruct (Z.leb_spec 0 (0 + i)); [|lia].
    apply lookup_lt_is_Some. rewrite length_fmap. lia.
  - intros i. apply read_through_null.
Qed.

(** X20. After [delSegments()] the full view still holds the released
    pointers: its [isAlloc] answers true, yet [del()] through it is a
    second [delete[]] of the same block and every read or write through
    either view is a use after release, all undefined behaviour. *)
Theorem released_storage_through_the_alias h a n :
  composite h a n ->
  exists a1 h1,
    ManSegArray.delSegments a h = Returns (a1, h1) /\
    ManSegArray.pairs a1 = ManSegArray.pairs a /\
    PairsArray.isAlloc (ManSegArray.pairs a1) = true /\
    PairsArray.del (ManSegArray.pairs a1) h1 = Undefined /\
    (forall i v,
       PairsArray.read (ManSegArray.pairs a1) i h1 = Undefined /\
       PairsArray.set (ManSegArray.pairs a1) i v h1 = Undefined /\
       HeadsArray.read (ManSegArray.heads a1) i h1 = Undefined /\
       HeadsArray.set (ManSegArray.heads a1) i v h1 = Undefined).
Proof.
  intros Hc.
  destruct (composite_heads_blocks _ _ _ Hc)
    as (bh & bt & hs & ts & Hheads & Hpairs & Hlen & Hne & Hbh & Hlh & Hbt & Hlt).
  destruct a as [hd ps f len]. simpl in Hheads, Hpairs, Hlen. subst hd ps len.
  eexists _, _. split; [exact (delSegments_blocks h _ f n bh bt hs ts Hbh Hbt Hne)|].
  cbn [ManSegArray.pairs ManSegArray.heads].
  split; [reflexivity|]. split; [reflexivity|].
  set (h1 := delete bt (delete bh h)).
  assert (Hgh : h1 !! bh = None).
  { unfold h1. rewrite lookup_delete_ne by congruence. apply lookup_delete_eq. }
  assert (Hgt : h1 !! bt = None) by apply lookup_delete_eq.
  split.
  { unfold PairsArray.del, bind, delete_array. simpl. now rewrite Hgh. }
  intros i v.
  assert (Hch : cell h1 (ptr_index (Loc bh 0) i) = None) by now apply cell_fresh_block.
  assert (Hct : cell h1 (ptr_index (Loc bt 0) i) = None) by now apply cell_fresh_block.
  split; [|split; [|split]].
  - unfold PairsArray.read, Pair.operator_double. apply bind_undefined.
    now apply load_undefined.
  - unfold PairsArray.set. apply bind_undefined. now apply store_undefined.
  - apply read_through_null.
  - unfold HeadsArray.set. apply store_undefined. simpl.
    destruct (i =? 0); reflexivity.
Qed.

(** X21. The default-constructed composite array, in any heap:
    [delSegments()] and [del()] change nothing, the views are
    unallocated, and [copytoIEEEdouble()] binds [full] to a new block of
    no cells without touching the null segment pointers. *)
Theorem default_constructed_composite junk h :
  ManSegArray.delSegments ManSegArray.empty h = Returns (ManSegArray.empty, h) /\
  ManSegArray.del ManSegArray.empty h = Returns (ManSegArray.empty, h) /\
  HeadsArray.isAlloc (ManSegArray.heads ManSegArray.empty) = false /\
  PairsArray.isAlloc (ManSegArray.pairs ManSegArray.empty) = false /\
  exists bf,
    h !! bf = None /\
    ManSegArray.copytoIEEEdouble junk ManSegArray.empty h =
    Returns (ManSegArray.mk HeadsArray.empty PairsArray.empty (Loc bf 0) 0,
             <[bf := []]> h).
Proof.
  split; [reflexivity|]. split; [reflexivity|].
  split; [reflexivity|]. split; [reflexivity|].
  unfold ManSegArray.copytoIEEEdouble, new_double_uninit. simpl.
  destruct (new_array_spec [] h) as (bf & Hbf & Hnew).
  exists bf. split; [exact Hbf|].
  now rewrite (bind_returns _ _ _ _ _ Hnew).
Qed.

Lemma HeadsArray_del_returns_null a h a1 h1 :
  HeadsArray.del a h = Returns (a1, h1) -> a1 = TwoSegArray.mk Null Null.
Proof.
  unfold HeadsArray.del, bind, ret.
  destruct (if negb (is_null (TwoSegArray.heads a)) then _ else _) as [[u h2]| | |];
    try discriminate.
  destruct (if negb (is_null (TwoSegArray.tails a)) then _ else _) as [[u' h3]| | |];
    try discriminate.
  congruence.
Qed.

(** X25. Both release functions of the composite array are idempotent:
    whenever [delSegments()] or [del()] returns, calling it again returns
    the same object and the same heap, and reports nothing. *)
Theorem release_functions_are_idempotent a h a1 h1 :
  (ManSegArray.delSegments a h = Returns (a1, h1) ->
   ManSegArray.delSegments a1 h1 = Returns (a1, h1)) /\
  (ManSegArray.del a h = Returns (a1, h1) ->
   ManSegArray.del a1 h1 = Returns (a1, h1)).
Proof.
  split.
  - unfold ManSegArray.delSegments at 1. unfold bind at 1.
    destruct (HeadsArray.del (ManSegArray.heads a) h) as [[hs h2]| | |] eqn:Hdel;
      try discriminate.
    apply HeadsArray_del_returns_null in Hdel. subst hs.
    unfold ret. intros Heq. injection Heq as <- <-.
    unfold ManSegArray.delSegments. simpl.
    rewrite (bind_returns _ _ _ _ _ (HeadsArray_del_null h2)).
    unfold ret. destruct (is_null (ManSegArray.full a)); reflexivity.
  - unfold ManSegArray.del at 1. unfold bind at 1.
    destruct (if negb (is_null (ManSegArray.full a)) then _ else _) as [[u h2]| | |];
      try discriminate.
    unfold ret. intros Heq. injection Heq as <- <-.
    unfold ManSegArray.del, bind, ret. simpl.
    destruct (HeadsArray.isAlloc (ManSegArray.heads a)); reflexivity.
Qed.

(** ** The value read through the head *)

Lemma biased_exp_range d : 0 <= biased_exp d < 2048.
Proof.
  unfold biased_exp. rewrite Z.land_ones by lia. apply Z.mod_pos_bound. lia.
Qed.

Lemma mantissa_nonneg d : 0 <= mantissa d.
Proof.
  unfold mantissa. pose proof (fraction_range d).
  destruct (biased_exp d =? 0); lia.
Qed.

Local Open Scope Q_scope.

(** The value of a finite pattern from its three fields. *)
Lemma B2Q_finite d :
  is_finite d = true ->
  B2Q d == (if sign_bit d then (-1) else 1) * inject_Z (mantissa d)
           * Qpower 2 (exponent d).
Proof.
  intros Hfin. unfold mantissa, exponent.
  destruct (Z.eqb_spec (biased_exp d) 0) as [He|He].
  - unfold B2Q, bits2SF. rewrite He. simpl (0 =? 0)%Z. cbv iota.
    pose proof (fraction_range d) as Hf.
    destruct (fraction d) as [|p|p] eqn:Hm; try lia.
    + simpl. ring.
    + reflexivity.
  - assert (Hn : is_normal d = true).
    { unfold is_finite in Hfin. unfold is_normal.
      pose proof (biased_exp_range d).
      destruct (Z.eqb_spec (biased_exp d) 2047); [discriminate|].
      apply andb_true_intro. split; apply Z.leb_le; lia. }
    now rewrite (B2Q_normal d Hn).
Qed.

Lemma Qabs_signed (sg y c : Q) :
  sg == 1 \/ sg == -1 -> 0 <= y -> 0 <= c -> Qabs (sg * y * c) == y * c.
Proof.
  intros Hsg Hy Hc.
  assert (Hyc : 0 <= y * c) by now apply Qmult_le_0_compat.
  destruct Hsg as [-> | ->].
  - rewrite Qabs_pos; [ring|].
    setoid_replace (1 * y * c) with (y * c) using relation Qeq by ring. exact Hyc.
  - rewrite Qabs_neg; [ring|].
    setoid_replace (-1 * y * c) with (- (y * c)) using relation Qeq by ring.
    now apply (Qopp_le_compat 0 (y * c)).
Qed.

Local Close Scope Q_scope.

Lemma is_finite_head_roundtrip d :
  is_finite (decodeHeadOnly (encodeHeadOnly d)) = is_finite d.
Proof. unfold is_finite. now rewrite biased_exp_head_roundtrip. Qed.

Lemma mantissa_head_roundtrip d :
  mantissa (decodeHeadOnly (encodeHeadOnly d)) = mantissa d - wrap32 d.
Proof.
  unfold mantissa. rewrite biased_exp_head_roundtrip.
  destruct (fraction_head_roundtrip d) as (Hfr & _ & _).
  destruct (biased_exp d =? 0); lia.
Qed.

Lemma exponent_head_roundtrip d :
  exponent (decodeHeadOnly (encodeHeadOnly d)) = exponent d.
Proof. unfold exponent. now rewrite biased_exp_head_roundtrip. Qed.

(** X22. Storing a finite double through a [Head] accessor truncates it
    toward zero: the value read back is finite, has the sign of [d] and a
    magnitude that is at most that of [d]. *)
Theorem head_roundtrip_truncates_toward_zero h H d old :
  cell h (Head.head H) = Some old ->
  is_finite d = true ->
  exists h' d',
    (do _ <- Head.assign H d; Head.operator_double H) h = Returns (d', h') /\
    is_finite d' = true /\
    sign_bit d' = sign_bit d /\
    (Qabs (B2Q d') <= Qabs (B2Q d))%Q.
Proof.
  intros Hc Hfin.
  exists (heap_upd h (Head.head H) (encodeHeadOnly d)), (decodeHeadOnly (encodeHeadOnly d)).
  split.
  { rewrite (bind_returns _ _ _ _ _ (Head_assign_spec _ _ d _ Hc)).
    apply Head_operator_double_spec. eapply cell_upd_eq. exact Hc. }
  split; [now rewrite is_finite_head_roundtrip|].
  split; [apply sign_bit_head_roundtrip|].
  rewrite (B2Q_finite d Hfin).
  rewrite (B2Q_finite _ (eq_trans (is_finite_head_roundtrip d) Hfin)).
  rewrite sign_bit_head_roundtrip, exponent_head_roundtrip, mantissa_head_roundtrip.
  pose proof (mantissa_nonneg d) as Hm.
  pose proof (mantissa_nonneg (decodeHeadOnly (encodeHeadOnly d))) as Hm'.
  rewrite mantissa_head_roundtrip in Hm'.
  pose proof (wrap32_range d) as Hx. unfold is_u32 in Hx.
  assert (Hsg : ((if sign_bit d then -1 else 1) == 1 \/
                 (if sign_bit d then -1 else 1) == -1)%Q)
    by (destruct (sign_bit d); [right|left]; reflexivity).
  assert (Hpow : (0 <= Qpower 2 (exponent d))%Q)
    by (apply Qlt_le_weak, Qpower_0_lt; reflexivity).
  rewrite !Qabs_signed; try assumption.
  - apply Qmult_le_compat_r; [|exact Hpow]. rewrite <- Zle_Qle. lia.
  - rewrite <- (Zle_Qle 0). lia.
  - rewrite <- (Zle_Qle 0). lia.
Qed.

Lemma fraction_head_roundtrip_low d :
  fraction (decodeHeadOnly (encodeHeadOnly d)) mod 2 ^ 32 = 0.
Proof.
  rewrite <- Z.land_ones by lia. unfold fraction.
  apply Z.bits_inj'. intros k Hk.
  rewrite !testbit_land_ones, testbit_head_roundtrip, Z.testbit_0_l by lia.
  destruct (Z.leb_spec 32 k), (Z.ltb_spec k 32); try lia;
    now rewrite ?andb_false_r.
Qed.

(** X23. What the head keeps of a non-finite double: an infinity reads
    back as itself; a NaN whose fraction has a bit among its upper 20
    reads back as a NaN; a NaN whose fraction bits all lie in the low 32
    reads back as the infinity of its sign. *)
Theorem head_roundtrip_of_non_finite h H d old :
  cell h (Head.head H) = Some old ->
  biased_exp d = 2047 ->
  exists h' d',
    (do _ <- Head.assign H d; Head.operator_double H) h = Returns (d', h') /\
    (fraction d = 0 ->
       bits2SF d = S754_infinity (sign_bit d) /\
       bits2SF d' = S754_infinity (sign_bit d)) /\
    (2 ^ 32 <= fraction d ->
       bits2SF d = S754_nan /\ bits2SF d' = S754_nan) /\
    (0 < fraction d < 2 ^ 32 ->
       bits2SF d = S754_nan /\ bits2SF d' = S754_infinity (sign_bit d)).
Proof.
  intros Hc He.
  exists (heap_upd h (Head.head H) (encodeHeadOnly d)), (decodeHeadOnly (encodeHeadOnly d)).
  split.
  { rewrite (bind_returns _ _ _ _ _ (Head_assign_spec _ _ d _ Hc)).
    apply Head_operator_double_spec. eapply cell_upd_eq. exact Hc. }
  destruct (fraction_head_roundtrip d) as (Hfr & Hx & Hf').
  pose proof (fraction_head_roundtrip_low d) as Hlow.
  set (d' := decodeHeadOnly (encodeHeadOnly d)) in *.
  assert (Hsf : forall x, biased_exp x = 2047 ->
            bits2SF x = if fraction x =? 0 then S754_infinity (sign_bit x) else S754_nan).
  { intros x Hx2. unfold bits2SF. now rewrite Hx2. }
  assert (He' : biased_exp d' = 2047) by (unfold d'; now rewrite biased_exp_head_roundtrip).
  assert (Hs' : sign_bit d' = sign_bit d) by apply sign_bit_head_roundtrip.
  rewrite (Hsf d He), (Hsf d' He'), Hs'.
  split; [|split].
  - intros Hz. assert (Hz' : fraction d' = 0) by lia.
    now rewrite Hz, Hz'.
  - intros Hbig.
    destruct (Z.eqb_spec (fraction d) 0); [lia|].
    destruct (Z.eqb_spec (fraction d') 0); [lia|]. auto.
  - intros Hsmall.
    destruct (Z.eqb_spec (fraction d) 0); [lia|].
    assert (Hz' : fraction d' = 0).
    { rewrite <- Hlow. symmetry. apply Z.mod_small. lia. }
    now rewrite Hz'.
Qed.

Section CompoundThenRead.
Context {arith : DoubleArith}.


End CompoundThenRead.

(** ** The further properties on the concrete state *)




Lemma full_writes_agree_and_frame_witness :
  let h := example_heap in
  let a := example_array in
  let n := 2 in
  let i := 0 in
  let d := 0x400921FB54442D18 in
  exists h',
    HeadsArray.setPair a i d h = Returns (tt, h') /\
    PairsArray.setPair a i d h = Returns (tt, h') /\
    PairsArray.set a i d h = Returns (tt, h') /\
    PairsArray.read a i h' = Returns (d, h') /\
    HeadsArray.read a i h' = Returns (d - d mod 2 ^ 32, h') /\
    (forall j, j <> i ->
       cell h' (ptr_index (TwoSegArray.heads a) j) =
         cell h (ptr_index (TwoSegArray.heads a) j) /\
       cell h' (ptr_index (TwoSegArray.tails a) j) =
         cell h (ptr_index (TwoSegArray.tails a) j)) /\
    (forall q, q <> ptr_index (TwoSegArray.heads a) i ->
               q <> ptr_index (TwoSegArray.tails a) i -> cell h' q = cell h q) /\
    allocated h' a n.
Proof.
  intros.
  apply (full_writes_agree_and_frame example_heap example_array 2 0 0x400921FB54442D18);
    [exact example_allocated | lia | unfold is_u64; lia].
Defined.

Lemma pair_assign_roundtrip_witness :
  let h := example_heap in
  let P := PairsArray.at_ example_array 0 in
  let d := 0x400921FB54442D18 in
  exists h',
    Pair.assign P d h = Returns (P, h') /\
    cell h' (Pair.head P) = Some (encodeHeadOnly d) /\
    cell h' (Pair.tail P) = Some (encodeTail d) /\
    (forall q, q <> Pair.head P -> q <> Pair.tail P -> cell h' q = cell h q) /\
    Pair.operator_double P h' = Returns (d, h').
Proof.
  intros.
  apply (pair_assign_roundtrip example_heap (PairsArray.at_ example_array 0)
           0x400921FB54442D18 0x40040000 0);
    [reflexivity | reflexivity | discriminate | unfold is_u64; lia].
Defined.

Lemma pair_compound_assignment_stores_all_witness :
  let arith := ieee754 in
  let h := example_heap in
  let P := PairsArray.at_ example_array 1 in
  let r := 0x3FF0000000000000 in
  let hd := 0x400921FB in
  let tl := 0x54442D18 in
  pair_compound_result h P (dadd (decodeFull hd tl) r) (Pair.add_assign P r h) /\
  pair_compound_result h P (dsub (decodeFull hd tl) r) (Pair.sub_assign P r h) /\
  pair_compound_result h P (dmul (decodeFull hd tl) r) (Pair.mul_assign P r h) /\
  pair_compound_result h P (ddiv (decodeFull hd tl) r) (Pair.div_assign P r h).
Proof.
  intros.
  apply (@pair_compound_assignment_stores_all ieee754 example_heap
           (PairsArray.at_ example_array 1) 0x3FF0000000000000 0x400921FB 0x54442D18);
    [reflexivity | reflexivity | discriminate].
Defined.


Lemma head_write_exact_when_low_half_zero_witness :
  let h := example_heap in
  let a := example_array in
  let n := 2 in
  let i := 1 in
  let d := 0x7FF0000000000000 in
  exists h',
    (do _ <- HeadsArray.set a i d; HeadsArray.read a i) h = Returns (d, h').
Proof.
  intros.
  apply (head_write_exact_when_low_half_zero example_heap example_array 2 1
           0x7FF0000000000000);
    [exact example_allocated | lia | unfold is_u64; lia | reflexivity].
Defined.

Lemma write_back_of_read_is_noop_witness :
  let h := example_heap in
  let a := example_array in
  let n := 2 in
  let i := 1 in
  let c := 0x400921FB in
  let t := 0x54442D18 in
  (do v <- HeadsArray.read a i; HeadsArray.set a i v) h = Returns (tt, h) /\
  (do v <- PairsArray.read a i; PairsArray.set a i v) h = Returns (tt, h).
Proof.
  intros.
  apply (write_back_of_read_is_noop example_heap example_array 2 1 0x400921FB 0x54442D18);
    [exact example_allocated | lia | reflexivity | unfold is_u32; lia
    | reflexivity | unfold is_u32; lia].
Defined.

Lemma head_assign_from_pair_truncates_witness :
  let h := example_heap in
  let H := HeadsArray.at_ example_array 0 in
  let P := PairsArray.at_ example_array 1 in
  let hd := 0x400921FB in
  exists h',
    Head_assign_Pair H P h = Returns (H, h') /\
    (do d <- Pair.operator_double P; Head.assign H d) h = Returns (H, h') /\
    cell h' (Head.head H) = Some hd /\
    (forall q, q <> Head.head H -> cell h' q = cell h q) /\
    Head.operator_double H h' = Returns (decodeHeadOnly hd, h').
Proof.
  intros.
  apply (head_assign_from_pair_truncates example_heap (HeadsArray.at_ example_array 0)
           (PairsArray.at_ example_array 1) 0x400921FB 0x54442D18 0x40040000);
    [reflexivity | unfold is_u32; lia | reflexivity | reflexivity].
Defined.

Lemma pair_assign_head_value_zeroes_tail_witness :
  let h := example_heap in
  let P := PairsArray.at_ example_array 1 in
  let o := HeadsArray.at_ example_array 0 in
  let hd := 0x40040000 in
  exists h',
    (do d <- Head.operator_double o; Pair.assign P d) h = Returns (P, h') /\
    cell h' (Pair.head P) = Some hd /\
    cell h' (Pair.tail P) = Some 0 /\
    Pair.operator_double P h' = Returns (decodeHeadOnly hd, h').
Proof.
  intros.
  apply (pair_assign_head_value_zeroes_tail example_heap (PairsArray.at_ example_array 1)
           (HeadsArray.at_ example_array 0) 0x40040000 0x400921FB 0x54442D18);
    [reflexivity | unfold is_u32; lia | reflexivity | reflexivity | discriminate].
Defined.

Lemma mirror_holds_head_decoding_witness :
  let junk := example_junk in
  let h := example_heap in
  let a := example_composite in
  let n := 2 in
  exists a' h' bf,
    ManSegArray.copytoIEEEdouble junk a h = Returns (a', h') /\
    a' = ManSegArray.mk (ManSegArray.heads a) (ManSegArray.pairs a) (Loc bf 0) n /\
    h !! bf = None /\
    (forall i, 0 <= i < n ->
       exists c,
         cell h (ptr_index (TwoSegArray.heads (ManSegArray.heads a)) i) = Some c /\
         cell h' (ptr_index (ManSegArray.full a') i) = Some (decodeHeadOnly c)) /\
    (forall i, ~ 0 <= i < n -> cell h' (ptr_index (ManSegArray.full a') i) = None) /\
    (forall q, is_Some (cell h q) -> cell h' q = cell h q) /\
    composite h' a' n.
Proof.
  intros.
  apply (mirror_holds_head_decoding example_junk example_heap example_composite 2);
    [exact example_is_composite | unfold INT_MAX; lia].
Defined.

Lemma mirror_is_independent_witness :
  let junk := example_junk in
  let h := example_heap in
  let a := example_composite in
  let n := 2 in
  let i := 0 in
  let j := 1 in
  let v := 0x3FF0000000000000 in
  let w := 0x4000000000000000 in
  exists a' h',
    ManSegArray.copytoIEEEdouble junk a h = Returns (a', h') /\
    (exists h1, HeadsArray.set (ManSegArray.heads a') i v h' = Returns (tt, h1) /\
       forall k, cell h1 (ptr_index (ManSegArray.full a') k) =
                 cell h' (ptr_index (ManSegArray.full a') k)) /\
    (exists h1, PairsArray.set (ManSegArray.pairs a') i v h' = Returns (tt, h1) /\
       forall k, cell h1 (ptr_index (ManSegArray.full a') k) =
                 cell h' (ptr_index (ManSegArray.full a') k)) /\
    (exists h2, store (ptr_index (ManSegArray.full a') j) w h' = Returns (tt, h2) /\
       forall k,
         cell h2 (ptr_index (TwoSegArray.heads (ManSegArray.heads a')) k) =
           cell h' (ptr_index (TwoSegArray.heads (ManSegArray.heads a')) k) /\
         cell h2 (ptr_index (TwoSegArray.tails (ManSegArray.heads a')) k) =
           cell h' (ptr_index (TwoSegArray.tails (ManSegArray.heads a')) k)).
Proof.
  intros.
  apply (mirror_is_independent example_junk example_heap example_composite 2 0 1
           0x3FF0000000000000 0x4000000000000000);
    [exact example_is_composite | unfold INT_MAX; lia | lia | lia].
Defined.

Lemma mirror_build_then_del_restores_heap_witness :
  let junk := example_junk in
  let h := example_heap in
  let a := example_composite in
  let n := 2 in
  (do a' <- ManSegArray.copytoIEEEdouble junk a; ManSegArray.del a') h =
  Returns (ManSegArray.mk (ManSegArray.heads a) (ManSegArray.pairs a) Null n, h).
Proof.
  intros.
  apply (mirror_build_then_del_restores_heap example_junk example_heap example_composite 2);
    [exact example_is_composite | unfold INT_MAX; lia].
Defined.

Lemma second_mirror_leaks_the_first_witness :
  let junk := example_junk in
  let h := example_heap in
  let a := example_composite in
  let n := 2 in
  exists a1 a2 a3 h3 b1 b2 m,
    (do x1 <- ManSegArray.copytoIEEEdouble junk a;
     do x2 <- ManSegArray.copytoIEEEdouble junk x1;
     do x3 <- ManSegArray.del x2;
     ret (x1, x2, x3)) h = Returns ((a1, a2, a3), h3) /\
    ManSegArray.full a1 = Loc b1 0 /\
    ManSegArray.full a2 = Loc b2 0 /\
    b1 <> b2 /\
    ManSegArray.full a3 = Null /\
    ManSegArray.heads a3 = ManSegArray.heads a /\
    ManSegArray.pairs a3 = ManSegArray.pairs a /\
    h !! b1 = None /\
    h3 !! b1 = Some m /\ Z.of_nat (length m) = n.
Proof.
  intros.
  apply (second_mirror_leaks_the_first example_junk example_heap example_composite 2);
    [exact example_is_composite | unfold INT_MAX; lia].
Defined.

Lemma release_in_either_order_restores_heap_witness :
  let junk := example_junk in
  let junk' := example_junk in
  let n := 2 in
  let h := example_heap in
  exists alias,
    (do a <- ManSegArray.create junk n;
     do a1 <- ManSegArray.copytoIEEEdouble junk' a;
     do a2 <- ManSegArray.delSegments a1;
     do a3 <- ManSegArray.del a2;
     ret (ManSegArray.length a2, a3)) h
      = Returns ((n, ManSegArray.mk (TwoSegArray.mk Null Null) alias Null 0), h) /\
    (do a <- ManSegArray.create junk n;
     do a1 <- ManSegArray.copytoIEEEdouble junk' a;
     do a2 <- ManSegArray.del a1;
     do a3 <- ManSegArray.delSegments a2;
     ret (ManSegArray.length a2, a3)) h
      = Returns ((n, ManSegArray.mk (TwoSegArray.mk Null Null) alias Null 0), h).
Proof.
  intros.
  apply (release_in_either_order_restores_heap example_junk example_junk 2 example_heap).
  unfold INT_MAX. lia.
Defined.

Lemma mirror_outlives_segments_witness :
  let junk := example_junk in
  let h := example_heap in
  let a := example_composite in
  let n := 2 in
  exists a1 h1 a2 h2,
    ManSegArray.copytoIEEEdouble junk a h = Returns (a1, h1) /\
    ManSegArray.delSegments a1 h1 = Returns (a2, h2) /\
    ManSegArray.length a2 = n /\
    ManSegArray.full a2 = ManSegArray.full a1 /\
    HeadsArray.isAlloc (ManSegArray.heads a2) = false /\
    (forall k, cell h2 (ptr_index (ManSegArray.full a2) k) =
               cell h1 (ptr_index (ManSegArray.full a1) k)) /\
    (forall i, 0 <= i < n ->
       is_Some (cell h2 (ptr_index (ManSegArray.full a2) i))) /\
    (forall i, HeadsArray.read (ManSegArray.heads a2) i h2 = Undefined).
Proof.
  intros.
  apply (mirror_outlives_segments example_junk example_heap example_composite 2);
    [exact example_is_composite | unfold INT_MAX; lia].
Defined.

Lemma released_storage_through_the_alias_witness :
  let h := example_heap in
  let a := example_composite in
  let n := 2 in
  exists a1 h1,
    ManSegArray.delSegments a h = Returns (a1, h1) /\
    ManSegArray.pairs a1 = ManSegArray.pairs a /\
    PairsArray.isAlloc (ManSegArray.pairs a1) = true /\
    PairsArray.del (ManSegArray.pairs a1) h1 = Undefined /\
    (forall i v,
       PairsArray.read (ManSegArray.pairs a1) i h1 = Undefined /\
       PairsArray.set (ManSegArray.pairs a1) i v h1 = Undefined /\
       HeadsArray.read (ManSegArray.heads a1) i h1 = Undefined /\
       HeadsArray.set (ManSegArray.heads a1) i v h1 = Undefined).
Proof.
  intros.
  apply (released_storage_through_the_alias example_heap example_composite 2).
  exact example_is_composite.
Defined.

Lemma head_roundtrip_truncates_toward_zero_witness :
  let h := example_heap in
  let H := HeadsArray.at_ example_array 0 in
  let d := 0x800FFFFFFFFFFFFF in
  exists h' d',
    (do _ <- Head.assign H d; Head.operator_double H) h = Returns (d', h') /\
    is_finite d' = true /\
    sign_bit d' = sign_bit d /\
    (Qabs (B2Q d') <= Qabs (B2Q d))%Q.
Proof.
  intros.
  apply (head_roundtrip_truncates_toward_zero example_heap (HeadsArray.at_ example_array 0)
           0x800FFFFFFFFFFFFF 0x40040000); reflexivity.
Defined.

Lemma head_roundtrip_of_non_finite_witness :
  let h := example_heap in
  let H := HeadsArray.at_ example_array 0 in
  let d := 0x7FF0000000000001 in
  exists h' d',
    (do _ <- Head.assign H d; Head.operator_double H) h = Returns (d', h') /\
    (fraction d = 0 ->
       bits2SF d = S754_infinity (sign_bit d) /\
       bits2SF d' = S754_infinity (sign_bit d)) /\
    (2 ^ 32 <= fraction d ->
       bits2SF d = S754_nan /\ bits2SF d' = S754_nan) /\
    (0 < fraction d < 2 ^ 32 ->
       bits2SF d = S754_nan /\ bits2SF d' = S754_infinity (sign_bit d)).
Proof.
  intros.
  apply (head_roundtrip_of_non_finite example_heap (HeadsArray.at_ example_array 0)
           0x7FF0000000000001 0x40040000); reflexivity.
Defined.

Lemma release_functions_are_idempotent_witness :
  let a1 := ManSegArray.mk (TwoSegArray.mk Null Null) example_array Null 0 in
  ManSegArray.delSegments example_composite example_heap = Returns (a1, ∅) /\
  ManSegArray.delSegments a1 ∅ = Returns (a1, ∅).
Proof.
  intros.
  assert (Hfirst : ManSegArray.delSegments example_composite example_heap = Returns (a1, ∅))
    by (vm_compute; reflexivity).
  split; [exact Hfirst|].
  exact (proj1 (release_functions_are_idempotent example_composite example_heap a1 ∅) Hfirst).
Defined.
